(** * vectorAddMMAP: the topology prober, the verification loop and the
      multi-device allocator it drives

    The development follows [0_Simple/vectorAddMMAP/vectorAddMMAP.cpp]:
    [getBackingDevices], [RandomInit], [main] and [CleanupNoFailure] are
    embedded from that file.  The CUDA driver is an oracle (a record of
    query results), [checkCudaErrors] ends the run, and the allocator of
    [multidevicealloc_memmap.hpp] is a parameter of [main]. *)

From Stdlib Require Import ZArith List Bool Lia String.
From Stdlib Require Import Floats.SpecFloat Sorting.Sorted.
From stdpp Require Import base option list gmap.

Local Open Scope Z_scope.

(** ** The driver interface *)

(** [CUresult] is the driver's status code; only equality with
    [CUDA_SUCCESS] is ever tested. *)
Definition CUresult := Z.
Definition CUDA_SUCCESS : CUresult := 0.

(** [typedef int CUdevice]: a device is its ordinal. *)
Definition CUdevice := Z.
Definition CUdeviceptr := Z.

Inductive ExitCode := EXIT_SUCCESS | EXIT_FAILURE | EXIT_WAIVED.

(** A computation either hands back a value or leaves the process through
    [exit]. *)
Inductive Outcome (A : Type) :=
| Ret (a : A)
| Exit (code : ExitCode).
Arguments Ret {A} a.
Arguments Exit {A} code.

Definition bindO {A B} (m : Outcome A) (k : A -> Outcome B) : Outcome B :=
  match m with
  | Ret a => k a
  | Exit c => Exit c
  end.

Declare Scope outcome_scope.
Delimit Scope outcome_scope with outcome.
Notation "x <~ m ;; k" := (bindO m (fun x => k))
  (at level 100, m at next level, right associativity) : outcome_scope.

(** Modelled from the spec: [checkCudaErrors] is a macro of
    helper_cuda_drvapi.h, which is not among the sources.  Section 7 makes
    every surfaced failure terminal, so a status other than [CUDA_SUCCESS]
    ends the run with [EXIT_FAILURE]; otherwise the out-parameter written by
    the call is available. *)
Definition checkCudaErrors {A} (r : CUresult * A) : Outcome A :=
  if fst r =? CUDA_SUCCESS then Ret (snd r) else Exit EXIT_FAILURE.

(** The read-only topology queries.  Each returns its status and the value
    it stores through its out-parameter.  [cuDeviceGetAttribute_VAM dev] is
    [cuDeviceGetAttribute(&v,
    CU_DEVICE_ATTRIBUTE_VIRTUAL_ADDRESS_MANAGEMENT_SUPPORTED, dev)]. *)
Record Driver := {
  cuDeviceGetCount : CUresult * Z;
  cuDeviceCanAccessPeer : CUdevice -> CUdevice -> CUresult * Z;
  cuDeviceGetAttribute_VAM : CUdevice -> CUresult * Z
}.

Definition num_devices (drv : Driver) : Z := snd (cuDeviceGetCount drv).

(** A device table as seen from mapping device [d]: the queries the prober
    makes for [d] succeed, that is the device count, the peer query from [d]
    to every other known device, and the attribute query on [d].  Nothing is
    asked of queries on unknown ordinals or of a device about itself. *)
Definition driver_ok (drv : Driver) (d : CUdevice) : Prop :=
  fst (cuDeviceGetCount drv) = CUDA_SUCCESS /\
  (forall dev, 0 <= dev < num_devices drv -> dev <> d ->
               fst (cuDeviceCanAccessPeer drv d dev) = CUDA_SUCCESS) /\
  fst (cuDeviceGetAttribute_VAM drv d) = CUDA_SUCCESS.

(** The two predicates of the data model, read off the query results the
    way the code tests them ([!capable], [attributeVal == 0]). *)
Definition canAccessPeer (drv : Driver) (d dev : CUdevice) : bool :=
  negb (snd (cuDeviceCanAccessPeer drv d dev) =? 0).

Definition supportsVirtualAddressManagement (drv : Driver) (dev : CUdevice) : bool :=
  negb (snd (cuDeviceGetAttribute_VAM drv dev) =? 0).

(** ** getBackingDevices (lines 63-100) *)

(** The body of [for (int dev = 0; dev < num_devices; dev++)].  [fuel] is
    the number of iterations left, [dev] the loop variable and
    [backingDevices] the vector built so far; [push_back] appends.  The
    attribute query at lines 90-92 is made on [cuDevice], as in the
    source. *)
Fixpoint getBackingDevices_loop (drv : Driver) (cuDevice : CUdevice)
    (fuel : nat) (dev : Z) (backingDevices : list CUdevice)
    : Outcome (list CUdevice) :=
  match fuel with
  | O => Ret backingDevices
  | S fuel' =>
    if dev =? cuDevice then
      getBackingDevices_loop drv cuDevice fuel' (dev + 1) backingDevices
    else
      (capable <~ checkCudaErrors (cuDeviceCanAccessPeer drv cuDevice dev) ;;
       if capable =? 0 then
         getBackingDevices_loop drv cuDevice fuel' (dev + 1) backingDevices
       else
         attributeVal <~ checkCudaErrors (cuDeviceGetAttribute_VAM drv cuDevice) ;;
         if attributeVal =? 0 then
           getBackingDevices_loop drv cuDevice fuel' (dev + 1) backingDevices
         else
           getBackingDevices_loop drv cuDevice fuel' (dev + 1)
             (backingDevices ++ [dev]))%outcome
  end.

Definition getBackingDevices (drv : Driver) (cuDevice : CUdevice)
    : Outcome (list CUdevice) :=
  (n <~ checkCudaErrors (cuDeviceGetCount drv) ;;
   getBackingDevices_loop drv cuDevice (Z.to_nat n) 0 [cuDevice])%outcome.

(** The ordinals [from, from+1, ..., from+n-1] the loop visits. *)
Fixpoint enumerate (from : Z) (n : nat) : list CUdevice :=
  match n with
  | O => []
  | S n' => from :: enumerate (from + 1) n'
  end.

Definition knownDevices (drv : Driver) : list CUdevice :=
  enumerate 0 (Z.to_nat (num_devices drv)).

(** What one iteration of the loop keeps. *)
Definition loop_keeps (drv : Driver) (cuDevice dev : CUdevice) : bool :=
  negb (dev =? cuDevice) && canAccessPeer drv cuDevice dev
  && supportsVirtualAddressManagement drv cuDevice.

(** The contract of section 4.1 in the spec's words: the mapping device
    first, then every other known device that the mapping device can access
    and that itself supports virtual-address management. *)
Definition backingDevicesFor_spec (drv : Driver) (d : CUdevice) : list CUdevice :=
  d :: List.filter (fun dev => negb (dev =? d) && canAccessPeer drv d dev
                          && supportsVirtualAddressManagement drv dev)%bool
         (knownDevices drv).

Definition CUDA_ERROR_INVALID_DEVICE : CUresult := 101.

Definition known (n : Z) (dev : CUdevice) : bool := (0 <=? dev) && (dev <? n).

(** Synthetic topologies.  [table n peer vam]: [n] devices with the two
    capability matrices [peer] and [vam]; as in the driver, a query about an
    unknown ordinal, or about a device and itself as peers, fails. *)
Definition table (n : Z) (peer : CUdevice -> CUdevice -> bool)
    (vam : CUdevice -> bool) : Driver :=
  {| cuDeviceGetCount := (CUDA_SUCCESS, n);
     cuDeviceCanAccessPeer := fun a b =>
       if known n a && known n b && negb (a =? b)
       then (CUDA_SUCCESS, if peer a b then 1 else 0)
       else (CUDA_ERROR_INVALID_DEVICE, 0);
     cuDeviceGetAttribute_VAM := fun a =>
       if known n a then (CUDA_SUCCESS, if vam a then 1 else 0)
       else (CUDA_ERROR_INVALID_DEVICE, 0) |}.

(** Two devices, both peers; device 1 has no virtual-address management. *)
Definition two_devices : Driver :=
  table 2 (fun _ _ => true) (fun dev => dev =? 0).

(** Three devices, all peers; device 0 has no virtual-address management. *)
Definition three_devices : Driver :=
  table 3 (fun _ _ => true) (fun dev => negb (dev =? 0)).

(** ** Single-precision arithmetic *)

(** C's [float] is IEEE 754 binary32: 24 bits of precision, infinities at
    exponent 128.  The operations are those of the Standard Library's
    specification of floating-point numbers at that format, with round to
    nearest even. *)
Definition float32 := spec_float.

Definition f32_add : float32 -> float32 -> float32 := SFadd 24 128.
Definition f32_sub : float32 -> float32 -> float32 := SFsub 24 128.
Definition f32_div : float32 -> float32 -> float32 := SFdiv 24 128.
Definition f32_abs : float32 -> float32 := SFabs.

(** [x > y] and [x <= y] on floats: both are false when an operand is
    NaN. *)
Definition f32_gt (x y : float32) : bool := SFltb y x.
Definition f32_le (x y : float32) : bool := SFleb x y.

(** [(float) n] for an [int] n. *)
Definition f32_of_int (n : Z) : float32 := binary_normalize 24 128 n 0 false.

(** The literal [1e-7f]: 14073749 * 2^-47 (0x33D6BF95), the binary32 value
    nearest to 10^-7. *)
Definition tol_1e_7f : float32 := S754_finite false 14073749 (-47).

Definition f32_zero : float32 := S754_zero false.
Definition f32_nan : float32 := S754_nan.

(** A host array [float *h] is read through its index. *)
Definition HostArray := Z -> float32.

(** ** The verification loop (lines 204-215) *)

(** The test that triggers [break]:
    [float sum = h_A[i] + h_B[i]; fabs(h_C[i] - sum) > 1e-7f]. *)
Definition exceeds_tolerance (a b c : float32) : bool :=
  let sum := f32_add a b in
  f32_gt (f32_abs (f32_sub c sum)) tol_1e_7f.

(** [for (i = 0; i < N; ++i) { ... break; }]: the value of [i] after the
    loop.  [fuel] counts the iterations left. *)
Fixpoint verify_loop (h_A h_B h_C : HostArray) (fuel : nat) (i : Z) : Z :=
  match fuel with
  | O => i
  | S fuel' =>
    if exceeds_tolerance (h_A i) (h_B i) (h_C i) then i
    else verify_loop h_A h_B h_C fuel' (i + 1)
  end.

Definition verify (N : Z) (h_A h_B h_C : HostArray) : Z :=
  verify_loop h_A h_B h_C (Z.to_nat N) 0.

(** The claim's reading of one element's check:
    |h_C[i] - (h_A[i] + h_B[i])| <= 1e-7. *)
Definition within_tolerance (a b c : float32) : bool :=
  f32_le (f32_abs (f32_sub c (f32_add a b))) tol_1e_7f.

(** ** The program (lines 102-257) *)

(** What the run leaves behind: the lines it prints and its calls into the
    allocator. *)
Inductive Line :=
| Banner                              (* Vector Addition (Driver API) *)
| VamSupported (dev attributeVal : Z) (* Device %d VIRTUAL ADDRESS MANAGEMENT SUPPORTED = %d. *)
| VamUnsupported (dev : Z)            (* Device %d doesn't support VIRTUAL ADDRESS MANAGEMENT. *)
| LoadingModule                       (* > initCUDA loading module: <%s> *)
| FatbinEmpty                         (* fatbin file empty. exiting.. *)
| ResultPass                          (* Result = PASS *)
| ResultFail.                         (* Result = FAIL *)

Inductive Event :=
| Printf (l : Line)
| MallocMultiDeviceMmap (size : Z) (backing mapping : list CUdevice)
| FreeMultiDeviceMmap (dptr : CUdeviceptr) (size : Z).

Definition is_malloc (e : Event) : bool :=
  match e with MallocMultiDeviceMmap _ _ _ => true | _ => false end.

(** Everything outside the file that [main] consults.  [rand k] is the
    value of the k-th call of [rand()]; [cuMemcpyDtoH] yields the status
    and the contents read back into [h_C], which may depend on the two
    inputs. *)
Record World := {
  driver : Driver;
  cuInit : CUresult;
  findCudaDeviceDRV : Outcome CUdevice;
  cuCtxCreate : CUresult;
  findFatbinPath : bool;
  fatbin_size : Z;
  cuModuleLoadData : CUresult;
  cuModuleGetFunction : CUresult;
  RAND_MAX : Z;
  rand : Z -> Z;
  cuMemcpyHtoD : CUdeviceptr -> CUresult;
  cuLaunchKernel : CUresult;
  cuMemcpyDtoH : HostArray -> HostArray -> CUresult * HostArray;
  cuCtxDestroy : CUresult
}.

(** [RandomInit(data, n)] when [first] calls of [rand()] were made before:
    [data[i] = rand() / (float)RAND_MAX] for the indices below [n], the only
    ones the program reads. *)
Definition RandomInit (w : World) (first : Z) (n : Z) : HostArray :=
  fun i => f32_div (f32_of_int (rand w (first + i)))
                   (f32_of_int (RAND_MAX w)).

Definition result_line (i N : Z) : Line :=
  if i =? N then ResultPass else ResultFail.

Definition result_code (i N : Z) : ExitCode :=
  if i =? N then EXIT_SUCCESS else EXIT_FAILURE.

Declare Scope prog_scope.
Delimit Scope prog_scope with prog.

Section Program.
(** The allocator of multidevicealloc_memmap.hpp, with whatever state it
    keeps. *)
Context {AllocatorState : Type}.
Variable simpleMallocMultiDeviceMmap :
  Z -> list CUdevice -> list CUdevice -> AllocatorState ->
  (CUresult * (CUdeviceptr * Z)) * AllocatorState.
Variable simpleFreeMultiDeviceMmap :
  CUdeviceptr -> Z -> AllocatorState -> CUresult * AllocatorState.

Record Machine := {
  allocator : AllocatorState;
  trace : list Event
}.

Definition Prog (A : Type) : Type := Machine -> Outcome A * Machine.

Definition ret {A} (a : A) : Prog A := fun m => (Ret a, m).
Definition exit {A} (c : ExitCode) : Prog A := fun m => (Exit c, m).
Definition bind {A B} (p : Prog A) (k : A -> Prog B) : Prog B :=
  fun m => match p m with
           | (Ret a, m') => k a m'
           | (Exit c, m') => (Exit c, m')
           end.
Definition liftO {A} (o : Outcome A) : Prog A := fun m => (o, m).
Definition emit (e : Event) : Prog unit :=
  fun m => (Ret tt, {| allocator := allocator m; trace := trace m ++ [e] |}).
Definition printf (l : Line) : Prog unit := emit (Printf l).
Definition check {A} (r : CUresult * A) : Prog A := liftO (checkCudaErrors r).
Definition check_ (r : CUresult) : Prog unit := check (r, tt).

Notation "x <- p ;; k" := (bind p (fun x => k))
  (at level 100, p at next level, right associativity) : prog_scope.
Notation "p ;;; k" := (bind p (fun _ => k))
  (at level 100, right associativity) : prog_scope.

(** A checked call of the allocator: the call is recorded, the allocator
    state advances, a failure status ends the run. *)
Definition malloc_checked (size : Z) (backing mapping : list CUdevice)
    : Prog (CUdeviceptr * Z) :=
  (emit (MallocMultiDeviceMmap size backing mapping) ;;;
   fun m =>
     let '(r, a') := simpleMallocMultiDeviceMmap size backing mapping (allocator m) in
     check r {| allocator := a'; trace := trace m |})%prog.

Definition free_checked (dptr : CUdeviceptr) (size : Z) : Prog unit :=
  (emit (FreeMultiDeviceMmap dptr size) ;;;
   fun m =>
     let '(r, a') := simpleFreeMultiDeviceMmap dptr size (allocator m) in
     check_ r {| allocator := a'; trace := trace m |})%prog.

(** [CleanupNoFailure] (lines 223-249) on the globals [d_A], [d_B], [d_C]
    and [allocationSize]; freeing the host arrays leaves no trace. *)
Definition CleanupNoFailure (w : World) (d_A d_B d_C : CUdeviceptr)
    (allocationSize : Z) : Prog ExitCode :=
  (free_checked d_A allocationSize ;;;
   free_checked d_B allocationSize ;;;
   free_checked d_C allocationSize ;;;
   check_ (cuCtxDestroy w) ;;;
   ret EXIT_SUCCESS)%prog.

(** [main] (lines 103-221).  [sizeof(float)] is 4. *)
Definition main (w : World) : Prog ExitCode :=
  (printf Banner ;;;
   let N := 50000 in
   let size := N * 4 in
   check_ (cuInit w) ;;;
   cuDevice <- liftO (findCudaDeviceDRV w) ;;
   attributeVal <- check (cuDeviceGetAttribute_VAM (driver w) cuDevice) ;;
   printf (VamSupported cuDevice attributeVal) ;;;
   if attributeVal =? 0 then
     (printf (VamUnsupported cuDevice) ;;; exit EXIT_WAIVED)
   else
     let mappingDevices := [cuDevice] in
     backingDevices <- liftO (getBackingDevices (driver w) cuDevice) ;;
     check_ (cuCtxCreate w) ;;;
     if negb (findFatbinPath w) then exit EXIT_FAILURE
     else
       printf LoadingModule ;;;
       if fatbin_size w =? 0 then (printf FatbinEmpty ;;; exit EXIT_FAILURE)
       else
         check_ (cuModuleLoadData w) ;;;
         check_ (cuModuleGetFunction w) ;;;
         let h_A := RandomInit w 0 N in
         let h_B := RandomInit w N N in
         a <- malloc_checked size backingDevices mappingDevices ;;
         b <- malloc_checked size backingDevices mappingDevices ;;
         c <- malloc_checked size backingDevices mappingDevices ;;
         let d_A := fst a in
         let allocationSize := snd a in
         let d_B := fst b in
         let d_C := fst c in
         check_ (cuMemcpyHtoD w d_A) ;;;
         check_ (cuMemcpyHtoD w d_B) ;;;
         check_ (cuLaunchKernel w) ;;;
         h_C <- check (cuMemcpyDtoH w h_A h_B) ;;
         let i := verify N h_A h_B h_C in
         CleanupNoFailure w d_A d_B d_C allocationSize ;;;
         printf (result_line i N) ;;;
         exit (result_code i N))%prog.
End Program.

(** ** The allocator (spec sections 3, 4.2-4.6 and 7) *)

Inductive AllocError :=
| CapabilityUnsupported
| PhysicalAllocationFailed
| AddressReservationFailed
| MappingFailed
| UnknownAllocation.

Inductive Result (A : Type) :=
| Ok (a : A)
| Err (e : AllocError).
Arguments Ok {A} a.
Arguments Err {A} e.

Record PhysicalChunk := {
  chunk_handle : Z;
  chunk_device : CUdevice;
  chunk_size : Z
}.

Record Allocation := {
  range_base : CUdeviceptr;
  range_size : Z;
  chunks : list PhysicalChunk;
  mappingSet : list CUdevice
}.

(** Modelled from the spec: the state behind [allocate] and [free]
    (simpleMallocMultiDeviceMmap and simpleFreeMultiDeviceMmap of
    multidevicealloc_memmap.hpp, which is not among the sources).  Section 3
    gives the registry, from base pointer to allocation; the device side is
    the set of resident physical chunks by handle, the reserved ranges by
    base with their size, and the mapped addresses with the handle mapped
    there and the devices granted read-write access.  A chunk is
    [allocated] while its handle is resident and [released] afterwards.  The
    two counters name the next handle and the next free address. *)
Record AllocState := {
  registry : gmap Z Allocation;
  resident : gmap Z PhysicalChunk;
  reserved : gmap Z Z;
  mapped : gmap Z (Z * list CUdevice);
  next_handle : Z;
  next_va : Z
}.

(** Section 9: the registry is empty at startup. *)
Definition empty_state : AllocState :=
  {| registry := ∅; resident := ∅; reserved := ∅; mapped := ∅;
     next_handle := 1; next_va := 1 |}.

(** Modelled from the spec: the failure of a primitive, as section 8
    injects it: at chunk N of M, at the reservation, at mapping chunk N of M,
    at the access grant of the N-th mapping device. *)
Record Faults := {
  create_fails : nat -> bool;
  reserve_fails : bool;
  map_fails : nat -> bool;
  grant_fails : nat -> bool
}.

Definition no_faults : Faults :=
  {| create_fails := fun _ => false; reserve_fails := false;
     map_fails := fun _ => false; grant_fails := fun _ => false |}.

(** Modelled from the spec: the primitives of section 6, each acting on its
    own part of the device state. *)
Definition memCreate (c : PhysicalChunk) (s : AllocState) : AllocState :=
  {| registry := registry s;
     resident := <[chunk_handle c := c]> (resident s);
     reserved := reserved s; mapped := mapped s;
     next_handle := chunk_handle c + 1; next_va := next_va s |}.

Definition memRelease (c : PhysicalChunk) (s : AllocState) : AllocState :=
  {| registry := registry s;
     resident := delete (chunk_handle c) (resident s);
     reserved := reserved s; mapped := mapped s;
     next_handle := next_handle s; next_va := next_va s |}.

Definition addressReserve (base size : Z) (s : AllocState) : AllocState :=
  {| registry := registry s; resident := resident s;
     reserved := <[base := size]> (reserved s); mapped := mapped s;
     next_handle := next_handle s; next_va := base + size |}.

Definition addressFree (base : Z) (s : AllocState) : AllocState :=
  {| registry := registry s; resident := resident s;
     reserved := delete base (reserved s); mapped := mapped s;
     next_handle := next_handle s; next_va := next_va s |}.

Definition memMap (addr : Z) (c : PhysicalChunk) (s : AllocState) : AllocState :=
  {| registry := registry s; resident := resident s; reserved := reserved s;
     mapped := <[addr := (chunk_handle c, [])]> (mapped s);
     next_handle := next_handle s; next_va := next_va s |}.

Definition memUnmap (addr : Z) (s : AllocState) : AllocState :=
  {| registry := registry s; resident := resident s; reserved := reserved s;
     mapped := delete addr (mapped s);
     next_handle := next_handle s; next_va := next_va s |}.

Definition memSetAccess (addr : Z) (devs : list CUdevice) (s : AllocState)
    : AllocState :=
  {| registry := registry s; resident := resident s; reserved := reserved s;
     mapped := alter (fun e => (fst e, devs)) addr (mapped s);
     next_handle := next_handle s; next_va := next_va s |}.

Definition register (a : Allocation) (s : AllocState) : AllocState :=
  {| registry := <[range_base a := a]> (registry s);
     resident := resident s; reserved := reserved s; mapped := mapped s;
     next_handle := next_handle s; next_va := next_va s |}.

Definition unregister (p : CUdeviceptr) (s : AllocState) : AllocState :=
  {| registry := delete p (registry s);
     resident := resident s; reserved := reserved s; mapped := mapped s;
     next_handle := next_handle s; next_va := next_va s |}.

(** Section 4.2: rounding up to a granularity. *)
Definition ceil_div (x g : Z) : Z := (x + g - 1) / g.
Definition round_up (x g : Z) : Z := ceil_div x g * g.

(** Section 4.4: the governing alignment, the largest granularity in the
    backing set. *)
Definition alignmentOf (granularityOf : CUdevice -> Z) (backingSet : list CUdevice) : Z :=
  foldr (fun d acc => Z.max (granularityOf d) acc) 1 backingSet.

Definition total_size (cs : list PhysicalChunk) : Z :=
  foldr (fun c acc => chunk_size c + acc) 0 cs.

(** Section 4.5: chunk i sits at the sum of the sizes of the chunks before
    it. *)
Fixpoint placements (addr : Z) (cs : list PhysicalChunk) : list (Z * PhysicalChunk) :=
  match cs with
  | [] => []
  | c :: cs' => (addr, c) :: placements (addr + chunk_size c) cs'
  end.

Definition releaseAll (cs : list PhysicalChunk) (s : AllocState) : AllocState :=
  foldr memRelease s cs.

Definition unmapAll (pl : list (Z * PhysicalChunk)) (s : AllocState) : AllocState :=
  foldr (fun p => memUnmap (fst p)) s pl.

Definition setAccessAll (pl : list (Z * PhysicalChunk)) (devs : list CUdevice)
    (s : AllocState) : AllocState :=
  foldr (fun p => memSetAccess (fst p) devs) s pl.

(** Modelled from the spec: section 4.3 with the reference policy, an even
    share rounded up to each device's granularity, one chunk per backing
    device in backing-set order.  A failure releases the chunks already
    created by the call. *)
Fixpoint allocateChunks (fl : Faults) (granularityOf : CUdevice -> Z) (share : Z)
    (i : nat) (backingSet : list CUdevice) (s : AllocState)
    : Result (list PhysicalChunk) * AllocState :=
  match backingSet with
  | [] => (Ok [], s)
  | d :: ds =>
    if create_fails fl i then (Err PhysicalAllocationFailed, s)
    else
      let c := {| chunk_handle := next_handle s; chunk_device := d;
                  chunk_size := round_up share (granularityOf d) |} in
      match allocateChunks fl granularityOf share (S i) ds (memCreate c s) with
      | (Ok cs, s') => (Ok (c :: cs), s')
      | (Err e, s') => (Err e, memRelease c s')
      end
  end.

(** Modelled from the spec: section 4.4. *)
Definition reserveRange (fl : Faults) (totalSize alignment : Z) (s : AllocState)
    : Result CUdeviceptr * AllocState :=
  if reserve_fails fl then (Err AddressReservationFailed, s)
  else
    let base := round_up (next_va s) alignment in
    (Ok base, addressReserve base totalSize s).

(** Modelled from the spec: section 4.5, the mapping walk.  A failure unmaps
    what the walk has mapped. *)
Fixpoint mapChunks (fl : Faults) (i : nat) (pl : list (Z * PhysicalChunk))
    (s : AllocState) : Result unit * AllocState :=
  match pl with
  | [] => (Ok tt, s)
  | (addr, c) :: pl' =>
    if map_fails fl i then (Err MappingFailed, s)
    else
      match mapChunks fl (S i) pl' (memMap addr c s) with
      | (Ok u, s') => (Ok u, s')
      | (Err e, s') => (Err e, memUnmap addr s')
      end
  end.

(** Modelled from the spec: section 4.5, the access grant.  Every device of
    the mapping set is capability-checked (sections 7 and 8); the grant is
    one step, so it is decided before the state is touched. *)
Fixpoint grantCheck (fl : Faults) (supportsVAM : CUdevice -> bool) (i : nat)
    (mappingSet : list CUdevice) : option AllocError :=
  match mappingSet with
  | [] => None
  | d :: ds =>
    if negb (supportsVAM d) then Some CapabilityUnsupported
    else if grant_fails fl i then Some MappingFailed
    else grantCheck fl supportsVAM (S i) ds
  end.

(** Modelled from the spec: section 4.6, [allocate]. *)
Definition allocate (fl : Faults) (granularityOf : CUdevice -> Z)
    (supportsVAM : CUdevice -> bool) (size : Z)
    (backingSet mappingSet : list CUdevice) (s : AllocState)
    : Result (CUdeviceptr * Z) * AllocState :=
  let share := ceil_div size (Z.of_nat (length backingSet)) in
  match allocateChunks fl granularityOf share 0 backingSet s with
  | (Err e, s1) => (Err e, s1)
  | (Ok cs, s1) =>
    let totalSize := total_size cs in
    match reserveRange fl totalSize (alignmentOf granularityOf backingSet) s1 with
    | (Err e, s2) => (Err e, releaseAll cs s2)
    | (Ok base, s2) =>
      let pl := placements base cs in
      match mapChunks fl 0 pl s2 with
      | (Err e, s3) => (Err e, addressFree base (releaseAll cs s3))
      | (Ok _, s3) =>
        match grantCheck fl supportsVAM 0 mappingSet with
        | Some e => (Err e, addressFree base (releaseAll cs (unmapAll pl s3)))
        | None =>
          (Ok (base, totalSize),
           register {| range_base := base; range_size := totalSize;
                       chunks := cs; mappingSet := mappingSet |}
                    (setAccessAll pl mappingSet s3))
        end
      end
    end
  end.

(** Modelled from the spec: section 4.6, [free].  The recorded allocation,
    not [size], decides what is torn down. *)
Definition free (p : CUdeviceptr) (size : Z) (s : AllocState)
    : Result unit * AllocState :=
  match registry s !! p with
  | None => (Err UnknownAllocation, s)
  | Some a =>
    (Ok tt,
     unregister p
       (addressFree (range_base a)
          (releaseAll (chunks a)
             (unmapAll (placements (range_base a) (chunks a)) s))))
  end.

(** The inputs section 8 calls valid. *)
Definition valid_request (granularityOf : CUdevice -> Z) (size : Z)
    (backingSet : list CUdevice) : Prop :=
  0 < size /\ backingSet <> [] /\ Forall (fun d => 0 < granularityOf d) backingSet.

(** Every key in use lies below the counter that names the next one. *)
Definition keys_below {V} (bound : Z) (m : gmap Z V) : bool :=
  forallb (fun kv => fst kv <? bound) (map_to_list m).

Definition wf (s : AllocState) : bool :=
  keys_below (next_handle s) (resident s)
  && keys_below (next_va s) (reserved s)
  && keys_below (next_va s) (mapped s)
  && keys_below (next_va s) (registry s).

(** What the device and the registry hold, the counters left aside. *)
Definition same_resources (s s' : AllocState) : Prop :=
  registry s' = registry s /\ resident s' = resident s /\
  reserved s' = reserved s /\ mapped s' = mapped s.

(** ** Histories of allocator calls *)

(** A caller's view of the allocator: the calls it makes, and the pointers
    it holds, those returned by a successful [allocate] and not yet handed
    to a successful [free]. *)
Inductive Call :=
| CallAllocate (fl : Faults) (granularityOf : CUdevice -> Z)
    (supportsVAM : CUdevice -> bool) (size : Z)
    (backingSet mappingSet : list CUdevice)
| CallFree (p : CUdeviceptr) (size : Z).

Definition step (st : AllocState * list CUdeviceptr) (c : Call)
    : AllocState * list CUdeviceptr :=
  match c with
  | CallAllocate fl g v size backingSet mappingSet =>
    match allocate fl g v size backingSet mappingSet (fst st) with
    | (Ok r, s') => (s', fst r :: snd st)
    | (Err _, s') => (s', snd st)
    end
  | CallFree p size =>
    match free p size (fst st) with
    | (Ok _, s') => (s', List.filter (fun q => negb (q =? p)) (snd st))
    | (Err _, s') => (s', snd st)
    end
  end.

Definition run (calls : list Call) : AllocState * list CUdeviceptr :=
  fold_left step calls (empty_state, []).

(** ** The program on the allocator *)

(** Modelled from the spec: how the allocator's failures of section 7 reach
    [main], as a driver status other than [CUDA_SUCCESS]. *)
Definition status_of (e : AllocError) : CUresult :=
  match e with
  | CapabilityUnsupported => 801
  | PhysicalAllocationFailed => 2
  | AddressReservationFailed => 2
  | MappingFailed => 1
  | UnknownAllocation => 1
  end.

Definition mallocOn (fl : Faults) (granularityOf : CUdevice -> Z)
    (supportsVAM : CUdevice -> bool) (size : Z)
    (backingSet mappingSet : list CUdevice) (s : AllocState)
    : (CUresult * (CUdeviceptr * Z)) * AllocState :=
  match allocate fl granularityOf supportsVAM size backingSet mappingSet s with
  | (Ok r, s') => ((CUDA_SUCCESS, r), s')
  | (Err e, s') => ((status_of e, (0, 0)), s')
  end.

Definition freeOn (p : CUdeviceptr) (size : Z) (s : AllocState)
    : CUresult * AllocState :=
  match free p size s with
  | (Ok _, s') => (CUDA_SUCCESS, s')
  | (Err e, s') => (status_of e, s')
  end.

Definition RAND_MAX_glibc : Z := 2147483647.

(** A world in which every call succeeds: [drv] answers the topology
    queries, device [dev] is selected, [rand()] returns [RAND_MAX] on every
    thousandth call and 0 otherwise, and the readback holds [h_C]. *)
Definition quiet_world (drv : Driver) (dev : CUdevice)
    (h_C : HostArray -> HostArray -> HostArray) : World :=
  {| driver := drv;
     cuInit := CUDA_SUCCESS;
     findCudaDeviceDRV := Ret dev;
     cuCtxCreate := CUDA_SUCCESS;
     findFatbinPath := true;
     fatbin_size := 1;
     cuModuleLoadData := CUDA_SUCCESS;
     cuModuleGetFunction := CUDA_SUCCESS;
     RAND_MAX := RAND_MAX_glibc;
     rand := fun k => if k mod 1000 =? 0 then RAND_MAX_glibc else 0;
     cuMemcpyHtoD := fun _ => CUDA_SUCCESS;
     cuLaunchKernel := CUDA_SUCCESS;
     cuMemcpyDtoH := fun a b => (CUDA_SUCCESS, h_C a b);
     cuCtxDestroy := CUDA_SUCCESS |}.

Definition start {AllocatorState} (a : AllocatorState) : @Machine AllocatorState :=
  {| allocator := a; trace := [] |}.

Definition zeros : HostArray := fun _ => f32_zero.
Definition nans : HostArray := fun _ => f32_nan.

(** 4 KiB pages on device 0, 64 KiB elsewhere. *)
Definition sample_granularity (d : CUdevice) : Z :=
  if d =? 0 then 4096 else 65536.

(** The calls of a history that ask for something valid. *)
Definition valid_call (c : Call) : Prop :=
  match c with
  | CallAllocate _ g _ size backingSet _ => valid_request g size backingSet
  | CallFree _ _ => True
  end.

(** The queries [getBackingDevices] needs for mapping device [d]: the
    device count, the peer query towards every other known device and, as
    soon as one of them is peer-capable, the attribute query on [d]. *)
Definition queries_succeed (drv : Driver) (d : CUdevice) : Prop :=
  fst (cuDeviceGetCount drv) = CUDA_SUCCESS /\
  (forall dev, 0 <= dev < num_devices drv -> dev <> d ->
               fst (cuDeviceCanAccessPeer drv d dev) = CUDA_SUCCESS) /\
  ((exists dev, 0 <= dev < num_devices drv /\ dev <> d /\
                canAccessPeer drv d dev = true) ->
   fst (cuDeviceGetAttribute_VAM drv d) = CUDA_SUCCESS).

(** The peers of [d] among the known devices, in enumeration order. *)
Definition peersOf (drv : Driver) (d : CUdevice) : list CUdevice :=
  List.filter (fun dev => negb (dev =? d) && canAccessPeer drv d dev)%bool
              (knownDevices drv).

Definition is_free (e : Event) : bool :=
  match e with FreeMultiDeviceMmap _ _ => true | _ => false end.

Definition is_result (e : Event) : bool :=
  match e with
  | Printf ResultPass | Printf ResultFail => true
  | _ => false
  end.

(** The calls into the allocator among the events of a run. *)
Definition allocator_calls (evs : list Event) : list Event :=
  List.filter (fun e => is_malloc e || is_free e)%bool evs.

(** Four devices; device 0 reaches none of them, and the attribute query
    fails everywhere. *)
Definition isolated_devices : Driver :=
  {| cuDeviceGetCount := (CUDA_SUCCESS, 4);
     cuDeviceCanAccessPeer := fun _ _ => (CUDA_SUCCESS, 0);
     cuDeviceGetAttribute_VAM := fun _ => (CUDA_ERROR_INVALID_DEVICE, 0) |}.

(** The allocator calls of a complete run from allocator state [a] with
    device [dev] selected and backing set [bs]: three allocations of
    [N * sizeof(float)] bytes, then the frees of the three pointers
    returned, each with the size the first allocation reported. *)
Definition expected_calls {AllocatorState : Type}
    (simpleMallocMultiDeviceMmap :
       Z -> list CUdevice -> list CUdevice -> AllocatorState ->
       (CUresult * (CUdeviceptr * Z)) * AllocatorState)
    (a : AllocatorState) (dev : CUdevice) (bs : list CUdevice) : list Event :=
  let r1 := simpleMallocMultiDeviceMmap 200000 bs [dev] a in
  let r2 := simpleMallocMultiDeviceMmap 200000 bs [dev] (snd r1) in
  let r3 := simpleMallocMultiDeviceMmap 200000 bs [dev] (snd r2) in
  let allocationSize := snd (snd (fst r1)) in
  [MallocMultiDeviceMmap 200000 bs [dev];
   MallocMultiDeviceMmap 200000 bs [dev];
   MallocMultiDeviceMmap 200000 bs [dev];
   FreeMultiDeviceMmap (fst (snd (fst r1))) allocationSize;
   FreeMultiDeviceMmap (fst (snd (fst r2))) allocationSize;
   FreeMultiDeviceMmap (fst (snd (fst r3))) allocationSize].

(** Four devices seen from device 0: devices 1 and 3 are peers, device 2 is
    not; device 1 has no virtual-address management. *)
Definition four_devices : Driver :=
  table 4 (fun _ b => negb (b =? 2)) (fun dev => negb (dev =? 1)).

(** * Theorems *)

(** ** The topology prober *)

Section Topology.
Variable drv : Driver.
Variable d : CUdevice.

Lemma checkCudaErrors_success {A} (r : CUresult * A) :
  fst r = CUDA_SUCCESS -> checkCudaErrors r = Ret (snd r).
Proof. intros H. unfold checkCudaErrors. rewrite H. reflexivity. Qed.

Lemma checkCudaErrors_failure {A} (r : CUresult * A) :
  fst r <> CUDA_SUCCESS -> checkCudaErrors r = Exit EXIT_FAILURE.
Proof.
  intros H. unfold checkCudaErrors.
  destruct (Z.eqb_spec (fst r) CUDA_SUCCESS); [contradiction | reflexivity].
Qed.

(** One pass of the loop appends, in order, the ordinals it keeps. *)
Lemma getBackingDevices_loop_filter (Hok : driver_ok drv d) :
  forall fuel dev acc,
    (forall k, dev <= k < dev + Z.of_nat fuel -> 0 <= k < num_devices drv) ->
    getBackingDevices_loop drv d fuel dev acc
    = Ret (acc ++ List.filter (loop_keeps drv d) (enumerate dev fuel)).
Proof.
  destruct Hok as (_ & Hpeer & Hattr).
  induction fuel as [|fuel IH]; intros dev acc Hrange; simpl.
  - now rewrite app_nil_r.
  - assert (Hnext : forall k, dev + 1 <= k < dev + 1 + Z.of_nat fuel ->
                              0 <= k < num_devices drv)
      by (intros k Hk; apply Hrange; lia).
    unfold loop_keeps at 1, canAccessPeer, supportsVirtualAddressManagement.
    destruct (Z.eqb_spec dev d) as [Heq|Hne]; simpl; [apply IH, Hnext|].
    rewrite (checkCudaErrors_success _ (Hpeer dev (Hrange dev ltac:(lia)) Hne));
      simpl.
    destruct (snd (cuDeviceCanAccessPeer drv d dev) =? 0); simpl;
      [apply IH, Hnext|].
    rewrite (checkCudaErrors_success _ Hattr); simpl.
    destruct (snd (cuDeviceGetAttribute_VAM drv d) =? 0); simpl;
      [apply IH, Hnext|].
    rewrite IH, <- app_assoc by exact Hnext. reflexivity.
Qed.

(** What the code returns on a device table. *)
Lemma getBackingDevices_filter (Hok : driver_ok drv d) :
  getBackingDevices drv d
  = Ret (d :: List.filter (loop_keeps drv d) (knownDevices drv)).
Proof.
  unfold getBackingDevices.
  rewrite (checkCudaErrors_success _ (proj1 Hok)); simpl.
  rewrite getBackingDevices_loop_filter; [reflexivity|exact Hok|].
  unfold num_devices. intros k Hk. lia.
Qed.

Lemma In_enumerate from n x :
  In x (enumerate from n) <-> from <= x < from + Z.of_nat n.
Proof.
  revert from; induction n as [|n IH]; intros from; simpl.
  - lia.
  - rewrite IH. lia.
Qed.

Lemma NoDup_enumerate from n : List.NoDup (enumerate from n).
Proof.
  revert from; induction n as [|n IH]; intros from; simpl; constructor.
  - rewrite In_enumerate. lia.
  - apply IH.
Qed.

Lemma loop_keeps_other dev : loop_keeps drv d dev = true -> dev <> d.
Proof.
  unfold loop_keeps. intros H.
  apply andb_prop in H as [H _]. apply andb_prop in H as [H _].
  apply negb_true_iff in H. now apply Z.eqb_neq.
Qed.

Lemma loop_keeps_peer dev :
  loop_keeps drv d dev = true -> canAccessPeer drv d dev = true.
Proof.
  unfold loop_keeps. intros H.
  apply andb_prop in H as [H _]. now apply andb_prop in H as [_ H].
Qed.
End Topology.

Lemma driver_ok_table n peer vam d :
  0 <= d < n -> driver_ok (table n peer vam) d.
Proof.
  intros Hd. unfold driver_ok, num_devices, known; simpl. repeat split.
  - intros dev Hdev Hne. unfold known.
    destruct (Z.leb_spec 0 d), (Z.ltb_spec d n), (Z.leb_spec 0 dev),
      (Z.ltb_spec dev n), (Z.eqb_spec d dev); simpl; try reflexivity; lia.
  - unfold known.
    destruct (Z.leb_spec 0 d), (Z.ltb_spec d n); simpl; try reflexivity; lia.
Qed.

(** C5: on every device table, [getBackingDevices d] returns a non-empty
    sequence whose first element is [d]. *)
Theorem getBackingDevices_starts_with_mapping_device :
  forall (drv : Driver) (d : CUdevice),
    driver_ok drv d ->
    exists rest, getBackingDevices drv d = Ret (d :: rest).
Proof.
  intros drv d Hok. eexists. apply getBackingDevices_filter, Hok.
Qed.

Lemma getBackingDevices_starts_with_mapping_device_witness :
  driver_ok two_devices 0 /\
  exists rest, getBackingDevices two_devices 0 = Ret (0 :: rest).
Proof.
  assert (Hok : driver_ok two_devices 0) by (apply driver_ok_table; lia).
  split; [exact Hok|].
  apply (getBackingDevices_starts_with_mapping_device two_devices 0 Hok).
Defined.

(** C6: on every device table, every device of the returned sequence other
    than [d] passes the peer-access check with [d]. *)
Theorem getBackingDevices_only_peers :
  forall (drv : Driver) (d : CUdevice),
    driver_ok drv d ->
    exists l, getBackingDevices drv d = Ret l /\
      forall dev, In dev l -> dev <> d -> canAccessPeer drv d dev = true.
Proof.
  intros drv d Hok. eexists. split; [apply getBackingDevices_filter, Hok|].
  intros dev [Hd | Hin] Hne; [congruence|].
  apply filter_In in Hin as [_ Hk]. now apply loop_keeps_peer in Hk.
Qed.

Lemma getBackingDevices_only_peers_witness :
  driver_ok two_devices 0 /\
  exists l, getBackingDevices two_devices 0 = Ret l /\
    forall dev, In dev l -> dev <> 0 -> canAccessPeer two_devices 0 dev = true.
Proof.
  assert (Hok : driver_ok two_devices 0) by (apply driver_ok_table; lia).
  split; [exact Hok|].
  apply (getBackingDevices_only_peers two_devices 0 Hok).
Defined.

(** On every device table, whatever the two predicates answer for the
    candidate devices, [getBackingDevices] returns a sequence: no answer of
    a predicate ends the call. *)
Lemma getBackingDevices_total :
  forall (drv : Driver) (d : CUdevice),
    driver_ok drv d ->
    exists l, getBackingDevices drv d = Ret l.
Proof.
  intros drv d Hok. eexists. apply getBackingDevices_filter, Hok.
Qed.

Lemma getBackingDevices_total_witness :
  driver_ok (table 4 (fun _ _ => false) (fun _ => false)) 2 /\
  exists l, getBackingDevices (table 4 (fun _ _ => false) (fun _ => false)) 2 = Ret l.
Proof.
  assert (Hok : driver_ok (table 4 (fun _ _ => false) (fun _ => false)) 2)
    by (apply driver_ok_table; lia).
  split; [exact Hok|].
  apply (getBackingDevices_total
           (table 4 (fun _ _ => false) (fun _ => false)) 2 Hok).
Defined.

(** C7: on [four_devices] the call for mapping device 0 returns without an
    error and passes over device 2, which fails the peer-access test; but
    device 1, which fails the virtual-address-management test, is not passed
    over: the attribute test of lines 90-92 asks about [cuDevice]. *)
Theorem getBackingDevices_keeps_candidate_failing_vam_test :
  driver_ok four_devices 0 /\
  getBackingDevices four_devices 0 = Ret [0; 1; 3] /\
  canAccessPeer four_devices 0 2 = false /\ ~ In 2 [0; 1; 3] /\
  supportsVirtualAddressManagement four_devices 1 = false /\ In 1 [0; 1; 3].
Proof.
  split; [apply driver_ok_table; lia|].
  split; [reflexivity|]. split; [reflexivity|].
  split; [simpl; intros [H|[H|[H|[]]]]; discriminate H|].
  split; [reflexivity | simpl; auto].
Qed.

(** C10: on every device table the returned sequence is the mapping device
    followed by devices other than it, and no device occurs twice: the loop
    visits the ordinals 0, 1, ..., each once, and passes over the mapping
    device, which was pushed first and so occurs exactly once. *)
Theorem getBackingDevices_NoDup :
  forall (drv : Driver) (d : CUdevice),
    driver_ok drv d ->
    exists rest,
      getBackingDevices drv d = Ret (d :: rest) /\
      ~ In d rest /\
      List.NoDup (d :: rest) /\
      count_occ Z.eq_dec (d :: rest) d = 1%nat.
Proof.
  intros drv d Hok. eexists. split; [apply getBackingDevices_filter, Hok|].
  assert (Hnot : ~ In d (List.filter (loop_keeps drv d) (knownDevices drv))).
  { intros Hin. apply filter_In in Hin as [_ Hk].
    now apply loop_keeps_other in Hk. }
  split; [exact Hnot|]. split.
  - constructor; [exact Hnot|].
    apply List.NoDup_filter, NoDup_enumerate.
  - simpl. destruct (Z.eq_dec d d) as [_|Hne]; [|contradiction].
    f_equal. now apply count_occ_not_In.
Qed.

Lemma getBackingDevices_NoDup_witness :
  driver_ok three_devices 1 /\
  exists rest,
    getBackingDevices three_devices 1 = Ret (1 :: rest) /\
    ~ In 1 rest /\
    List.NoDup (1 :: rest) /\
    count_occ Z.eq_dec (1 :: rest) 1 = 1%nat.
Proof.
  assert (Hok : driver_ok three_devices 1) by (apply driver_ok_table; lia).
  split; [exact Hok|].
  apply (getBackingDevices_NoDup three_devices 1 Hok).
Defined.

(** C1: the attribute test of lines 90-92 asks about the mapping device,
    not about the candidate.  With two peer devices of which only device 0
    supports virtual-address management, the sequence returned for device 0
    contains device 1. *)
Theorem getBackingDevices_keeps_device_without_vam :
  driver_ok two_devices 0 /\
  getBackingDevices two_devices 0 = Ret [0; 1] /\
  In 1 [0; 1] /\ 1 <> 0 /\
  supportsVirtualAddressManagement two_devices 1 = false.
Proof.
  split; [apply driver_ok_table; lia|].
  repeat split; try reflexivity; simpl; auto; lia.
Qed.

(** C2: with three peer devices of which device 0 lacks virtual-address
    management, the code returns [1; 0; 2] for mapping device 1 where the
    contract of section 4.1 gives [1; 2]. *)
Theorem getBackingDevices_differs_from_contract :
  driver_ok three_devices 1 /\
  getBackingDevices three_devices 1 = Ret [1; 0; 2] /\
  backingDevicesFor_spec three_devices 1 = [1; 2].
Proof. split; [apply driver_ok_table; lia | split; reflexivity]. Qed.

(** ** The capability check of [main] *)

(** C8: when the selected device answers 0 to the virtual-address-management
    query, [main] prints its three lines and leaves with [EXIT_WAIVED]; the
    allocator is never called and its state is untouched, whatever the
    allocator is. *)
Theorem main_waives_before_any_allocation :
  forall (AllocatorState : Type)
    (simpleMallocMultiDeviceMmap :
       Z -> list CUdevice -> list CUdevice -> AllocatorState ->
       (CUresult * (CUdeviceptr * Z)) * AllocatorState)
    (simpleFreeMultiDeviceMmap :
       CUdeviceptr -> Z -> AllocatorState -> CUresult * AllocatorState)
    (w : World) (m : Machine) (cuDevice : CUdevice),
    cuInit w = CUDA_SUCCESS ->
    findCudaDeviceDRV w = Ret cuDevice ->
    fst (cuDeviceGetAttribute_VAM (driver w) cuDevice) = CUDA_SUCCESS ->
    supportsVirtualAddressManagement (driver w) cuDevice = false ->
    exists m',
      main simpleMallocMultiDeviceMmap simpleFreeMultiDeviceMmap w m
      = (Exit EXIT_WAIVED, m') /\
      allocator m' = allocator m /\
      trace m' = trace m ++ [Printf Banner; Printf (VamSupported cuDevice 0);
                             Printf (VamUnsupported cuDevice)] /\
      List.filter is_malloc (trace m') = List.filter is_malloc (trace m).
Proof.
  intros AllocatorState malloc free w m cuDevice Hinit Hdev Hst Hvam.
  unfold supportsVirtualAddressManagement in Hvam.
  apply negb_false_iff, Z.eqb_eq in Hvam.
  unfold main, bind, printf, emit, check_, check, liftO.
  rewrite Hinit, Hdev. simpl.
  rewrite (checkCudaErrors_success _ Hst), Hvam. simpl.
  eexists. split; [reflexivity|]. simpl. repeat split.
  - now rewrite <- !app_assoc.
  - rewrite <- !app_assoc, List.filter_app. simpl. now rewrite app_nil_r.
Qed.

Lemma main_waives_before_any_allocation_witness :
  let w := quiet_world two_devices 1 (fun a b i => f32_add (a i) (b i)) in
  cuInit w = CUDA_SUCCESS /\
  findCudaDeviceDRV w = Ret 1 /\
  fst (cuDeviceGetAttribute_VAM (driver w) 1) = CUDA_SUCCESS /\
  supportsVirtualAddressManagement (driver w) 1 = false /\
  exists m',
    main (mallocOn no_faults sample_granularity (fun _ => true)) freeOn w
         (start empty_state)
    = (Exit EXIT_WAIVED, m') /\
    allocator m' = allocator (start empty_state) /\
    trace m' = trace (start empty_state)
               ++ [Printf Banner; Printf (VamSupported 1 0);
                   Printf (VamUnsupported 1)] /\
    List.filter is_malloc (trace m')
    = List.filter is_malloc (trace (start empty_state)).
Proof.
  intros w. repeat (split; [reflexivity|]).
  apply (main_waives_before_any_allocation AllocState
           (mallocOn no_faults sample_granularity (fun _ => true)) freeOn
           w (start empty_state) 1); reflexivity.
Defined.

(** ** The verification loop *)

Lemma verify_loop_complete h_A h_B h_C :
  forall fuel i,
    verify_loop h_A h_B h_C fuel i = i + Z.of_nat fuel <->
    (forall k, i <= k < i + Z.of_nat fuel ->
               exceeds_tolerance (h_A k) (h_B k) (h_C k) = false).
Proof.
  assert (Hle : forall fuel i, verify_loop h_A h_B h_C fuel i <= i + Z.of_nat fuel).
  { induction fuel as [|fuel IH]; intros i; simpl verify_loop; [lia|].
    destruct (exceeds_tolerance _ _ _); [lia|]. specialize (IH (i + 1)). lia. }
  induction fuel as [|fuel IH]; intros i.
  - simpl. split; [intros _ k Hk; lia | intros _; lia].
  - simpl verify_loop.
    destruct (exceeds_tolerance (h_A i) (h_B i) (h_C i)) eqn:Hi.
    + split; [lia|]. intros H. rewrite H in Hi; [discriminate | lia].
    + replace (i + Z.of_nat (S fuel)) with (i + 1 + Z.of_nat fuel) by lia.
      rewrite IH. split; intros H k Hk.
      * destruct (Z.eq_dec k i) as [->|]; [exact Hi | apply H; lia].
      * apply H. lia.
Qed.

Lemma verify_accepts_iff N h_A h_B h_C :
  0 <= N ->
  (verify N h_A h_B h_C = N <->
   forall i, 0 <= i < N -> exceeds_tolerance (h_A i) (h_B i) (h_C i) = false).
Proof.
  intros HN. unfold verify.
  pose proof (verify_loop_complete h_A h_B h_C (Z.to_nat N) 0) as H.
  rewrite Z2Nat.id in H by exact HN. exact H.
Qed.

Lemma result_line_pass i N : result_line i N = ResultPass <-> i = N.
Proof.
  unfold result_line. destruct (Z.eqb_spec i N); split; congruence.
Qed.

Lemma SFcompare_swap x y :
  SFcompare y x = option_map CompOpp (SFcompare x y).
Proof.
  destruct x as [sx|sx| |sx mx ex], y as [sy|sy| |sy my ey]; simpl;
    try reflexivity;
    try (destruct sx; reflexivity); try (destruct sy; reflexivity);
    try (destruct sx, sy; reflexivity).
  destruct sx, sy; simpl; try reflexivity;
    rewrite (Z.compare_antisym ey ex);
    destruct (ey ?= ex) eqn:He; simpl; try reflexivity;
    rewrite (Pos.compare_cont_antisym _ _ Eq); simpl;
    try reflexivity; now rewrite CompOpp_involutive.
Qed.

(** Away from NaN, [x > y] is the negation of [x <= y]. *)
Lemma f32_gt_le x y :
  f32_gt x y = false <-> f32_le x y = true \/ SFcompare x y = None.
Proof.
  unfold f32_gt, f32_le, SFltb, SFleb. rewrite (SFcompare_swap x y).
  destruct (SFcompare x y) as [[]|]; simpl; intuition congruence.
Qed.

Lemma SFcompare_None x y :
  SFcompare x y = None <-> x = S754_nan \/ y = S754_nan.
Proof.
  destruct x as [sx|sx| |sx mx ex], y as [sy|sy| |sy my ey]; simpl;
    split; try (intros [?|?]; discriminate); try discriminate; auto;
    destruct sx; try destruct sy; discriminate.
Qed.

Lemma SFcompare_tol_None x : SFcompare x tol_1e_7f = None <-> x = f32_nan.
Proof.
  rewrite SFcompare_None. unfold tol_1e_7f, f32_nan.
  split; [intros [H|H]; [exact H | discriminate H] | auto].
Qed.

Lemma exceeds_tolerance_false a b c :
  exceeds_tolerance a b c = false <->
  within_tolerance a b c = true \/
  f32_abs (f32_sub c (f32_add a b)) = f32_nan.
Proof.
  unfold exceeds_tolerance, within_tolerance.
  rewrite f32_gt_le, SFcompare_tol_None. reflexivity.
Qed.

(** The literal is the binary32 value nearest to 10^-7: its distance to
    10^-7 is below half a unit in the last place (2^-48). *)
Lemma tol_1e_7f_nearest :
  2 * Z.abs (14073749 * 10 ^ 7 - 2 ^ 47) <= 10 ^ 7 /\
  valid_binary 24 128 tol_1e_7f = true.
Proof. split; [vm_compute; discriminate | reflexivity]. Qed.

(** What the loop accepts: with N = 50000 the line selected is PASS exactly
    when at every index the single-precision difference
    [fabs(h_C[i] - (h_A[i] + h_B[i]))] is within [1e-7f] or is NaN; the loop
    breaks only on a difference that compares greater than the tolerance. *)
Lemma verify_pass_iff_no_excess :
  forall h_A h_B h_C : HostArray,
    result_line (verify 50000 h_A h_B h_C) 50000 = ResultPass <->
    (forall i, 0 <= i < 50000 ->
       within_tolerance (h_A i) (h_B i) (h_C i) = true \/
       f32_abs (f32_sub (h_C i) (f32_add (h_A i) (h_B i))) = f32_nan).
Proof.
  intros h_A h_B h_C.
  rewrite result_line_pass, verify_accepts_iff by lia.
  split; intros H i Hi; apply exceeds_tolerance_false, H, Hi.
Qed.

(** A result of NaNs against inputs of zeros runs the loop to the end
    although no element is within tolerance. *)
Lemma verify_passes_on_nan :
  ~ (result_line (verify 50000 zeros zeros nans) 50000 = ResultPass <->
     (forall i, 0 <= i < 50000 ->
        within_tolerance (zeros i) (zeros i) (nans i) = true)).
Proof.
  intros [H _].
  assert (Hpass : result_line (verify 50000 zeros zeros nans) 50000 = ResultPass)
    by (vm_compute; reflexivity).
  specialize (H Hpass 0 ltac:(lia)). discriminate H.
Qed.

(** ** The allocator: what each step leaves alone *)

Lemma keys_below_lookup {V} (bound : Z) (m : gmap Z V) :
  keys_below bound m = true <-> (forall k v, m !! k = Some v -> k < bound).
Proof.
  unfold keys_below. rewrite forallb_forall. split.
  - intros H k v Hkv. apply Z.ltb_lt.
    apply (H (k, v)), list_elem_of_In, elem_of_map_to_list, Hkv.
  - intros H [k v] Hin. apply Z.ltb_lt, (H k v).
    now apply elem_of_map_to_list, list_elem_of_In.
Qed.

Lemma keys_below_fresh {V} (bound : Z) (m : gmap Z V) k :
  keys_below bound m = true -> bound <= k -> m !! k = None.
Proof.
  intros H Hk. destruct (m !! k) as [v|] eqn:Hl; [|reflexivity].
  apply (proj1 (keys_below_lookup bound m) H) in Hl. lia.
Qed.

Lemma releaseAll_registry cs s : registry (releaseAll cs s) = registry s.
Proof. induction cs as [|c cs IH]; simpl; [reflexivity | exact IH]. Qed.

Lemma releaseAll_reserved cs s : reserved (releaseAll cs s) = reserved s.
Proof. induction cs as [|c cs IH]; simpl; [reflexivity | exact IH]. Qed.

Lemma releaseAll_mapped cs s : mapped (releaseAll cs s) = mapped s.
Proof. induction cs as [|c cs IH]; simpl; [reflexivity | exact IH]. Qed.

Lemma unmapAll_registry pl s : registry (unmapAll pl s) = registry s.
Proof. induction pl as [|p pl IH]; simpl; [reflexivity | exact IH]. Qed.

Lemma unmapAll_reserved pl s : reserved (unmapAll pl s) = reserved s.
Proof. induction pl as [|p pl IH]; simpl; [reflexivity | exact IH]. Qed.

Lemma unmapAll_resident pl s : resident (unmapAll pl s) = resident s.
Proof. induction pl as [|p pl IH]; simpl; [reflexivity | exact IH]. Qed.

Lemma setAccessAll_registry pl devs s :
  registry (setAccessAll pl devs s) = registry s.
Proof. induction pl as [|p pl IH]; simpl; [reflexivity | exact IH]. Qed.

Lemma setAccessAll_reserved pl devs s :
  reserved (setAccessAll pl devs s) = reserved s.
Proof. induction pl as [|p pl IH]; simpl; [reflexivity | exact IH]. Qed.

Lemma setAccessAll_resident pl devs s :
  resident (setAccessAll pl devs s) = resident s.
Proof. induction pl as [|p pl IH]; simpl; [reflexivity | exact IH]. Qed.

(** Releasing removes exactly the handles released. *)
Lemma releaseAll_resident_in cs s k :
  In k (map chunk_handle cs) -> resident (releaseAll cs s) !! k = None.
Proof.
  induction cs as [|c cs IH]; simpl; [tauto|]. intros Hin.
  destruct (Z.eq_dec (chunk_handle c) k) as [->|Hne].
  - apply lookup_delete_eq.
  - rewrite lookup_delete_ne by exact Hne. apply IH. tauto.
Qed.

Lemma releaseAll_resident_out cs s k :
  ~ In k (map chunk_handle cs) ->
  resident (releaseAll cs s) !! k = resident s !! k.
Proof.
  induction cs as [|c cs IH]; simpl; [reflexivity|]. intros Hin.
  rewrite lookup_delete_ne by tauto. apply IH. tauto.
Qed.

Lemma unmapAll_mapped_in pl s k :
  In k (map fst pl) -> mapped (unmapAll pl s) !! k = None.
Proof.
  induction pl as [|p pl IH]; simpl; [tauto|]. intros Hin.
  destruct (Z.eq_dec (fst p) k) as [->|Hne].
  - apply lookup_delete_eq.
  - rewrite lookup_delete_ne by exact Hne. apply IH. tauto.
Qed.

Lemma unmapAll_mapped_out pl s k :
  ~ In k (map fst pl) -> mapped (unmapAll pl s) !! k = mapped s !! k.
Proof.
  induction pl as [|p pl IH]; simpl; [reflexivity|]. intros Hin.
  rewrite lookup_delete_ne by tauto. apply IH. tauto.
Qed.

Lemma setAccessAll_mapped_out pl devs s k :
  ~ In k (map fst pl) ->
  mapped (setAccessAll pl devs s) !! k = mapped s !! k.
Proof.
  induction pl as [|p pl IH]; simpl; [reflexivity|]. intros Hin.
  rewrite lookup_alter_ne by tauto. apply IH. tauto.
Qed.

(** Creating chunks, with or without a failure, touches neither the
    registry nor the address space. *)
Lemma allocateChunks_frame fl g share devs :
  forall i s,
    let s' := snd (allocateChunks fl g share i devs s) in
    registry s' = registry s /\ reserved s' = reserved s /\
    mapped s' = mapped s /\ next_va s' = next_va s.
Proof.
  induction devs as [|d ds IH]; intros i s; simpl.
  - auto.
  - destruct (create_fails fl i); simpl; [auto|].
    match goal with |- context [allocateChunks fl g share (S i) ds ?t] =>
      specialize (IH (S i) t); destruct (allocateChunks fl g share (S i) ds t) as [[cs|e] s1]
    end; simpl in *; exact IH.
Qed.

Lemma mapChunks_frame fl pl :
  forall i s,
    let s' := snd (mapChunks fl i pl s) in
    registry s' = registry s /\ reserved s' = reserved s /\
    resident s' = resident s /\ next_va s' = next_va s /\
    next_handle s' = next_handle s.
Proof.
  induction pl as [|[addr c] pl IH]; intros i s; simpl.
  - auto.
  - destruct (map_fails fl i); simpl; [auto|].
    match goal with |- context [mapChunks fl (S i) pl ?t] =>
      specialize (IH (S i) t); destruct (mapChunks fl (S i) pl t) as [[u|e] s1]
    end; simpl in *; exact IH.
Qed.

(** The registry after [allocate]: one more entry, at the pointer
    returned, on success; unchanged on failure. *)
Lemma allocate_registry fl g v size backingSet mappingSet s :
  match allocate fl g v size backingSet mappingSet s with
  | (Ok r, s') => exists a, registry s' = <[fst r := a]> (registry s)
  | (Err _, s') => registry s' = registry s
  end.
Proof.
  unfold allocate.
  pose proof (allocateChunks_frame fl g
                (ceil_div size (Z.of_nat (length backingSet))) backingSet 0 s)
    as (Hreg1 & _).
  destruct (allocateChunks _ _ _ _ _ _) as [[cs|e] s1]; simpl in *;
    [|exact Hreg1].
  unfold reserveRange. destruct (reserve_fails fl); simpl.
  { now rewrite releaseAll_registry. }
  match goal with |- context [mapChunks fl 0 ?pl ?t] =>
    pose proof (mapChunks_frame fl pl 0 t) as (Hreg3 & _);
    destruct (mapChunks fl 0 pl t) as [[u|e] s3]
  end; simpl in *.
  - destruct (grantCheck _ _ _ _); simpl.
    + now rewrite releaseAll_registry, unmapAll_registry, Hreg3.
    + eexists. now rewrite setAccessAll_registry, Hreg3, Hreg1.
  - now rewrite releaseAll_registry, Hreg3.
Qed.

Lemma free_unknown p size s :
  registry s !! p = None -> free p size s = (Err UnknownAllocation, s).
Proof. intros H. unfold free. now rewrite H. Qed.

Lemma free_known p size s a :
  registry s !! p = Some a ->
  exists s', free p size s = (Ok tt, s') /\ registry s' = delete p (registry s).
Proof.
  intros H. unfold free. rewrite H. eexists. split; [reflexivity|]. simpl.
  now rewrite releaseAll_registry, unmapAll_registry.
Qed.

(** The pointers a caller holds cover the registry. *)
Lemma step_registry_held st c :
  (forall q, is_Some (registry (fst st) !! q) -> In q (snd st)) ->
  forall q, is_Some (registry (fst (step st c)) !! q) -> In q (snd (step st c)).
Proof.
  intros Hinv q. destruct st as [s held], c as [fl g v size bs ms | p size];
    simpl in *.
  - pose proof (allocate_registry fl g v size bs ms s) as H.
    destruct (allocate fl g v size bs ms s) as [[r|e] s']; simpl.
    + destruct H as [a ->]. rewrite lookup_insert.
      case_decide; [auto | intros Hq; right; auto].
    + rewrite H. apply Hinv.
  - unfold free. destruct (registry s !! p) as [a|] eqn:Hp; simpl.
    + rewrite releaseAll_registry, unmapAll_registry, lookup_delete.
      case_decide as Hpq; [intros [? ?]; discriminate|].
      intros Hq. apply filter_In. split; [auto|].
      apply negb_true_iff, Z.eqb_neq. congruence.
    + apply Hinv.
Qed.

Lemma run_registry_held calls :
  forall q, is_Some (registry (fst (run calls)) !! q) -> In q (snd (run calls)).
Proof.
  unfold run.
  assert (H : forall st,
             (forall q, is_Some (registry (fst st) !! q) -> In q (snd st)) ->
             forall q, is_Some (registry (fst (fold_left step calls st)) !! q) ->
                       In q (snd (fold_left step calls st))).
  { induction calls as [|c calls IH]; intros st Hst; simpl; [exact Hst|].
    apply IH, step_registry_held, Hst. }
  apply H. simpl. intros q [a Ha]. rewrite lookup_empty in Ha. discriminate.
Qed.

(** C4: after any history of calls, [free] on a pointer the caller does not
    hold (never returned by [allocate], or already freed) fails with
    [UnknownAllocation] and returns the state it was given. *)
Theorem free_unheld_pointer_fails_cleanly :
  forall (calls : list Call) (p : CUdeviceptr) (size : Z),
    ~ In p (snd (run calls)) ->
    free p size (fst (run calls)) = (Err UnknownAllocation, fst (run calls)).
Proof.
  intros calls p size Hp. apply free_unknown.
  destruct (registry (fst (run calls)) !! p) as [a|] eqn:Hl; [|reflexivity].
  exfalso. apply Hp, run_registry_held. now exists a.
Qed.

Lemma free_unheld_pointer_fails_cleanly_witness :
  let calls := [CallAllocate no_faults sample_granularity (fun _ => true)
                             200000 [0; 1] [0];
                CallFree 65536 233472] in
  ~ In 65536 (snd (run calls)) /\
  free 65536 233472 (fst (run calls)) = (Err UnknownAllocation, fst (run calls)).
Proof.
  intros calls.
  assert (H : ~ In 65536 (snd (run calls))) by (vm_compute; tauto).
  split; [exact H|].
  apply (free_unheld_pointer_fails_cleanly calls 65536 233472 H).
Defined.

(** ** The allocator: a successful [allocate] and the [free] that follows *)

Lemma round_up_ge x g : 0 < g -> x <= round_up x g.
Proof.
  intros Hg. unfold round_up, ceil_div.
  pose proof (Z.div_mod (x + g - 1) g ltac:(lia)) as Hdm.
  pose proof (Z.mod_pos_bound (x + g - 1) g Hg) as Hb. nia.
Qed.

Lemma ceil_div_nonneg x g : 0 < x -> 0 < g -> 0 <= ceil_div x g.
Proof. intros Hx Hg. unfold ceil_div. apply Z.div_pos; lia. Qed.

Lemma alignmentOf_pos g backingSet : 1 <= alignmentOf g backingSet.
Proof. induction backingSet as [|d ds IH]; simpl; lia. Qed.

Lemma allocateChunks_ok fl g share devs :
  forall i s cs s',
    allocateChunks fl g share i devs s = (Ok cs, s') ->
    Forall (fun c => next_handle s <= chunk_handle c) cs /\
    (forall k, ~ In k (map chunk_handle cs) ->
               resident s' !! k = resident s !! k) /\
    map chunk_size cs = map (fun d => round_up share (g d)) devs.
Proof.
  induction devs as [|d ds IH]; intros i s cs s' H; simpl in H.
  - injection H as <- <-. repeat split; constructor.
  - destruct (create_fails fl i); [discriminate|].
    destruct (allocateChunks _ _ _ _ _ _) as [[cs0|e] s0] eqn:E; [|discriminate].
    injection H as <- <-.
    apply IH in E as (Hge & Hframe & Hsz). simpl in *. repeat split.
    + constructor; simpl; [lia|].
      eapply Forall_impl; [exact Hge|]. simpl. intros c Hc. lia.
    + intros k Hk. rewrite Hframe by tauto.
      apply lookup_insert_ne. tauto.
    + now rewrite Hsz.
Qed.

Lemma mapChunks_ok fl pl :
  forall i s u s',
    mapChunks fl i pl s = (Ok u, s') ->
    forall k, ~ In k (map fst pl) -> mapped s' !! k = mapped s !! k.
Proof.
  induction pl as [|[addr c] pl IH]; intros i s u s' H k Hk; simpl in H.
  - now injection H as <- <-.
  - destruct (map_fails fl i); [discriminate|].
    destruct (mapChunks _ _ _ _) as [[u0|e] s0] eqn:E; [|discriminate].
    injection H as <- <-. simpl in Hk.
    rewrite (IH _ _ _ _ E) by tauto. simpl.
    apply lookup_insert_ne. tauto.
Qed.

Lemma placements_ge cs :
  Forall (fun c => 0 <= chunk_size c) cs ->
  forall addr k, In k (map fst (placements addr cs)) -> addr <= k.
Proof.
  induction 1 as [|c cs Hc _ IH]; intros addr k; simpl; [tauto|].
  intros [<- | Hin]; [lia|]. apply IH in Hin. lia.
Qed.

Lemma chunk_sizes_nonneg (g : CUdevice -> Z) share (devs : list CUdevice) cs :
  0 <= share -> Forall (fun d => 0 < g d) devs ->
  map chunk_size cs = map (fun d => round_up share (g d)) devs ->
  Forall (fun c => 0 <= chunk_size c) cs.
Proof.
  intros Hs Hg. revert cs.
  induction Hg as [|d ds Hd _ IH]; intros [|c cs] Heq; simpl in Heq;
    try discriminate; constructor.
  - injection Heq as -> _. pose proof (round_up_ge share (g d) Hd). lia.
  - injection Heq as _ Heq. now apply IH.
Qed.

(** Whatever the faults, a call of [allocate] that succeeded is undone by
    the [free] of the pair it returned. *)
Lemma allocate_then_free_restores fl g v size backingSet mappingSet s p actual s1 :
  wf s = true ->
  valid_request g size backingSet ->
  allocate fl g v size backingSet mappingSet s = (Ok (p, actual), s1) ->
  exists a s2,
    registry s1 !! p = Some a /\
    range_base a = p /\ range_size a = actual /\
    length (chunks a) = length backingSet /\
    reserved s1 !! p = Some actual /\
    free p actual s1 = (Ok tt, s2) /\
    same_resources s s2 /\
    Forall (fun c => resident s2 !! chunk_handle c = None) (chunks a).
Proof.
  intros Hwf (Hsize & Hne & Hgran) H.
  unfold wf in Hwf.
  apply andb_prop in Hwf as [Hwf Hkreg].
  apply andb_prop in Hwf as [Hwf Hkmap].
  apply andb_prop in Hwf as [Hkres Hkrsv].
  unfold allocate in H.
  set (share := ceil_div size (Z.of_nat (length backingSet))) in *.
  pose proof (allocateChunks_frame fl g share backingSet 0 s)
    as (Hreg1 & Hrsv1 & Hmap1 & Hva1).
  destruct (allocateChunks fl g share 0 backingSet s) as [[cs|e] t1] eqn:E1;
    [|discriminate].
  simpl in Hreg1, Hrsv1, Hmap1, Hva1.
  apply allocateChunks_ok in E1 as (Hhandles & Hres1 & Hsizes).
  unfold reserveRange in H. destruct (reserve_fails fl); [discriminate|].
  set (base := round_up (next_va t1) (alignmentOf g backingSet)) in *.
  set (t2 := addressReserve base (total_size cs) t1) in *.
  pose proof (mapChunks_frame fl (placements base cs) 0 t2)
    as (Hreg3 & Hrsv3 & Hres3 & _ & _).
  destruct (mapChunks fl 0 (placements base cs) t2) as [[u|e] t3] eqn:E3;
    [|discriminate].
  simpl in Hreg3, Hrsv3, Hres3.
  pose proof (mapChunks_ok _ _ _ _ _ _ E3) as Hmap3.
  destruct (grantCheck fl v 0 mappingSet); [discriminate|].
  injection H as <- <- <-.
  assert (Hbase : next_va s <= base).
  { unfold base. rewrite Hva1. apply round_up_ge.
    pose proof (alignmentOf_pos g backingSet). lia. }
  assert (Hnn : Forall (fun c => 0 <= chunk_size c) cs).
  { eapply chunk_sizes_nonneg; [|exact Hgran|exact Hsizes].
    apply ceil_div_nonneg; [exact Hsize|].
    destruct backingSet; [congruence | simpl; lia]. }
  assert (Hlen : length cs = length backingSet).
  { rewrite <- (length_map chunk_size cs), Hsizes. apply length_map. }
  eexists. eexists. split; [apply lookup_insert_eq|].
  split; [reflexivity|]. split; [reflexivity|]. split; [exact Hlen|].
  split.
  { simpl. rewrite setAccessAll_reserved, Hrsv3. apply lookup_insert_eq. }
  unfold free. simpl registry. rewrite lookup_insert_eq. simpl chunks. simpl range_base.
  split; [reflexivity|].
  assert (Hresident :
    forall k, resident (releaseAll cs (unmapAll (placements base cs)
                (register {| range_base := base; range_size := total_size cs;
                             chunks := cs; mappingSet := mappingSet |}
                   (setAccessAll (placements base cs) mappingSet t3)))) !! k
              = if in_dec Z.eq_dec k (map chunk_handle cs) then None
                else resident s !! k).
  { intros k. destruct (in_dec Z.eq_dec k (map chunk_handle cs)) as [Hk|Hk].
    - now apply releaseAll_resident_in.
    - rewrite releaseAll_resident_out by exact Hk.
      rewrite unmapAll_resident. simpl.
      rewrite setAccessAll_resident, Hres3. simpl. now apply Hres1. }
  split; [repeat split|].
  - simpl. rewrite releaseAll_registry, unmapAll_registry. simpl.
    rewrite setAccessAll_registry, Hreg3. simpl. rewrite Hreg1.
    apply delete_insert_id. eapply keys_below_fresh; eauto.
  - simpl. apply map_eq. intros k. rewrite Hresident.
    destruct (in_dec Z.eq_dec k (map chunk_handle cs)) as [Hk|Hk];
      [|reflexivity].
    symmetry.
    eapply keys_below_fresh; [exact Hkres|].
    apply in_map_iff in Hk as (c & <- & Hc).
    rewrite Forall_forall in Hhandles. apply Hhandles.
    now apply list_elem_of_In.
  - simpl. rewrite releaseAll_reserved, unmapAll_reserved. simpl.
    rewrite setAccessAll_reserved, Hrsv3. simpl. rewrite Hrsv1.
    apply delete_insert_id. eapply keys_below_fresh; eauto.
  - simpl. rewrite releaseAll_mapped. apply map_eq. intros k.
    destruct (in_dec Z.eq_dec k (map fst (placements base cs))) as [Hk|Hk].
    + rewrite unmapAll_mapped_in by exact Hk. symmetry.
      eapply keys_below_fresh; [exact Hkmap|].
      apply (placements_ge cs Hnn) in Hk. lia.
    + rewrite unmapAll_mapped_out by exact Hk. simpl.
      rewrite setAccessAll_mapped_out by exact Hk.
      rewrite Hmap3 by exact Hk. simpl. now rewrite Hmap1.
  - rewrite Forall_forall. intros c Hc. simpl. rewrite Hresident.
    destruct (in_dec Z.eq_dec (chunk_handle c) (map chunk_handle cs)) as [Hk|Hk];
      [reflexivity|].
    exfalso. apply Hk, in_map. now apply list_elem_of_In.
Qed.

Lemma allocateChunks_no_faults g share devs :
  forall i s, exists cs s',
    allocateChunks no_faults g share i devs s = (Ok cs, s').
Proof.
  induction devs as [|d ds IH]; intros i s; simpl; [eauto|].
  match goal with |- context [allocateChunks no_faults g share (S i) ds ?t] =>
    destruct (IH (S i) t) as (cs & s' & ->) end.
  eauto.
Qed.

Lemma mapChunks_no_faults pl :
  forall i s, exists s', mapChunks no_faults i pl s = (Ok tt, s').
Proof.
  induction pl as [|[addr c] pl IH]; intros i s; simpl; [eauto|].
  match goal with |- context [mapChunks no_faults (S i) pl ?t] =>
    destruct (IH (S i) t) as (s' & ->) end.
  eauto.
Qed.

Lemma grantCheck_no_faults v mappingSet :
  Forall (fun d => v d = true) mappingSet ->
  forall i, grantCheck no_faults v i mappingSet = None.
Proof.
  induction 1 as [|d ds Hd _ IH]; intros i; simpl; [reflexivity|].
  rewrite Hd. simpl. apply IH.
Qed.

Lemma allocate_no_faults g v size backingSet mappingSet s :
  Forall (fun d => v d = true) mappingSet ->
  exists p actual s1,
    allocate no_faults g v size backingSet mappingSet s = (Ok (p, actual), s1).
Proof.
  intros Hv. unfold allocate.
  destruct (allocateChunks_no_faults g
              (ceil_div size (Z.of_nat (length backingSet))) backingSet 0 s)
    as (cs & t1 & ->).
  unfold reserveRange. simpl reserve_fails. cbv iota.
  match goal with |- context [mapChunks no_faults 0 ?pl ?t] =>
    destruct (mapChunks_no_faults pl 0 t) as (t3 & ->) end.
  rewrite (grantCheck_no_faults v mappingSet Hv). eauto.
Qed.

(** C3: for a valid request on a well-formed state, [allocate] succeeds when
    no primitive fails, and the [free] of the pair it returned succeeds and
    restores the registry, the resident chunks, the reserved ranges and the
    mappings to what they were: the registry entry is gone, every chunk of
    the allocation is released and its range is no longer reserved.  From an
    empty registry the registry is empty again. *)
Theorem allocate_then_free_leaves_nothing :
  forall (g : CUdevice -> Z) (v : CUdevice -> bool) (size : Z)
    (backingSet mappingSet : list CUdevice) (s : AllocState),
    wf s = true ->
    valid_request g size backingSet ->
    Forall (fun d => v d = true) mappingSet ->
    exists p actual s1 a s2,
      allocate no_faults g v size backingSet mappingSet s = (Ok (p, actual), s1) /\
      registry s1 !! p = Some a /\
      length (chunks a) = length backingSet /\
      reserved s1 !! p = Some actual /\
      free p actual s1 = (Ok tt, s2) /\
      same_resources s s2 /\
      registry s2 !! p = None /\
      reserved s2 !! p = None /\
      Forall (fun c => resident s2 !! chunk_handle c = None) (chunks a) /\
      (registry s = ∅ -> registry s2 = ∅).
Proof.
  intros g v size backingSet mappingSet s Hwf Hvalid Hv.
  destruct (allocate_no_faults g v size backingSet mappingSet s Hv)
    as (p & actual & s1 & Halloc).
  destruct (allocate_then_free_restores _ _ _ _ _ _ _ _ _ _ Hwf Hvalid Halloc)
    as (a & s2 & Hreg & _ & _ & Hlen & Hrsv & Hfree & Hsame & Hrel).
  exists p, actual, s1, a, s2.
  repeat (split; [assumption|]).
  pose proof (free_known p actual s1 a Hreg) as (s2' & Hfree' & Hdel).
  rewrite Hfree in Hfree'. injection Hfree' as <-.
  destruct Hsame as (Hr & Hres & Hrs & Hm).
  split; [rewrite Hdel; apply lookup_delete_eq|].
  split.
  { unfold free in Hfree. rewrite Hreg in Hfree. injection Hfree as <-.
    simpl. destruct (allocate_then_free_restores _ _ _ _ _ _ _ _ _ _ Hwf Hvalid Halloc)
      as (a' & _ & Hreg' & Hb & _).
    rewrite Hreg in Hreg'. injection Hreg' as <-. rewrite Hb.
    apply lookup_delete_eq. }
  split; [exact Hrel|]. intros He. now rewrite Hr.
Qed.

Lemma allocate_then_free_leaves_nothing_witness :
  wf empty_state = true /\
  valid_request sample_granularity 200000 [0; 1] /\
  Forall (fun d => (fun _ : CUdevice => true) d = true) [0] /\
  exists p actual s1 a s2,
    allocate no_faults sample_granularity (fun _ => true) 200000 [0; 1] [0]
             empty_state = (Ok (p, actual), s1) /\
    registry s1 !! p = Some a /\
    length (chunks a) = length [0; 1] /\
    reserved s1 !! p = Some actual /\
    free p actual s1 = (Ok tt, s2) /\
    same_resources empty_state s2 /\
    registry s2 !! p = None /\
    reserved s2 !! p = None /\
    Forall (fun c => resident s2 !! chunk_handle c = None) (chunks a) /\
    (registry empty_state = ∅ -> registry s2 = ∅).
Proof.
  assert (Hwf : wf empty_state = true) by reflexivity.
  assert (Hvalid : valid_request sample_granularity 200000 [0; 1]).
  { repeat split; [discriminate|]. repeat constructor. }
  assert (Hv : Forall (fun d => (fun _ : CUdevice => true) d = true) [0])
    by (repeat constructor).
  repeat (split; [assumption|]).
  exact (allocate_then_free_leaves_nothing sample_granularity (fun _ => true)
           200000 [0; 1] [0] empty_state Hwf Hvalid Hv).
Defined.

(** ** The allocator: well-formedness is kept *)

Lemma keys_below_delete {V} bound (m : gmap Z V) k :
  keys_below bound m = true -> keys_below bound (delete k m) = true.
Proof.
  rewrite !keys_below_lookup. intros H j v Hj.
  apply lookup_delete_Some in Hj as [_ Hj]. eauto.
Qed.

Lemma keys_below_insert {V} bound (m : gmap Z V) k x :
  keys_below bound m = true -> k < bound ->
  keys_below bound (<[k:=x]> m) = true.
Proof.
  rewrite !keys_below_lookup. intros H Hk j v Hj.
  apply lookup_insert_Some in Hj as [[<- _]|[_ Hj]]; eauto.
Qed.

Lemma keys_below_alter {V} bound (m : gmap Z V) (f : V -> V) k :
  keys_below bound m = true -> keys_below bound (alter f k m) = true.
Proof.
  rewrite !keys_below_lookup. intros H j v Hj.
  destruct (Z.eq_dec k j) as [->|Hne].
  - rewrite lookup_alter_eq in Hj. destruct (m !! j) as [w|] eqn:Hw;
      [eauto | discriminate].
  - rewrite lookup_alter_ne in Hj by exact Hne. eauto.
Qed.

Lemma keys_below_mono {V} bound bound' (m : gmap Z V) :
  bound <= bound' -> keys_below bound m = true -> keys_below bound' m = true.
Proof.
  rewrite !keys_below_lookup. intros Hb H j v Hj.
  specialize (H j v Hj). lia.
Qed.

Lemma wf_parts s :
  wf s = true <->
  keys_below (next_handle s) (resident s) = true /\
  keys_below (next_va s) (reserved s) = true /\
  keys_below (next_va s) (mapped s) = true /\
  keys_below (next_va s) (registry s) = true.
Proof. unfold wf. rewrite !andb_true_iff. tauto. Qed.

Ltac wf_step :=
  rewrite !wf_parts; simpl; intros (? & ? & ? & ?); repeat split;
  eauto using keys_below_delete, keys_below_alter.

Lemma wf_memRelease c s : wf s = true -> wf (memRelease c s) = true.
Proof. wf_step. Qed.

Lemma wf_memUnmap addr s : wf s = true -> wf (memUnmap addr s) = true.
Proof. wf_step. Qed.

Lemma wf_addressFree base s : wf s = true -> wf (addressFree base s) = true.
Proof. wf_step. Qed.

Lemma wf_unregister p s : wf s = true -> wf (unregister p s) = true.
Proof. wf_step. Qed.

Lemma wf_memSetAccess addr devs s :
  wf s = true -> wf (memSetAccess addr devs s) = true.
Proof. wf_step. Qed.

Lemma wf_memCreate c s :
  chunk_handle c = next_handle s -> wf s = true -> wf (memCreate c s) = true.
Proof.
  intros Hc. wf_step. apply keys_below_insert; [|lia].
  eapply keys_below_mono; [|eassumption]. lia.
Qed.

Lemma wf_addressReserve base size s :
  next_va s <= base -> 0 < size ->
  wf s = true -> wf (addressReserve base size s) = true.
Proof.
  intros Hb Hs. wf_step.
  - apply keys_below_insert; [|lia]. eapply keys_below_mono; [|eassumption]. lia.
  - eapply keys_below_mono; [|eassumption]. lia.
  - eapply keys_below_mono; [|eassumption]. lia.
Qed.

Lemma wf_memMap addr c s :
  addr < next_va s -> wf s = true -> wf (memMap addr c s) = true.
Proof. intros Ha. wf_step. now apply keys_below_insert. Qed.

Lemma wf_register a s :
  range_base a < next_va s -> wf s = true -> wf (register a s) = true.
Proof. intros Ha. wf_step. now apply keys_below_insert. Qed.

Lemma wf_releaseAll cs s : wf s = true -> wf (releaseAll cs s) = true.
Proof.
  intros H. induction cs as [|c cs IH]; simpl; [exact H|].
  now apply wf_memRelease.
Qed.

Lemma wf_unmapAll pl s : wf s = true -> wf (unmapAll pl s) = true.
Proof.
  intros H. induction pl as [|p pl IH]; simpl; [exact H|].
  now apply wf_memUnmap.
Qed.

Lemma wf_setAccessAll pl devs s :
  wf s = true -> wf (setAccessAll pl devs s) = true.
Proof.
  intros H. induction pl as [|p pl IH]; simpl; [exact H|].
  now apply wf_memSetAccess.
Qed.

Lemma setAccessAll_next_va pl devs s :
  next_va (setAccessAll pl devs s) = next_va s.
Proof. induction pl as [|p pl IH]; simpl; [reflexivity | exact IH]. Qed.

Lemma wf_allocateChunks fl g share devs :
  forall i s, wf s = true -> wf (snd (allocateChunks fl g share i devs s)) = true.
Proof.
  induction devs as [|d ds IH]; intros i s Hwf; simpl; [exact Hwf|].
  destruct (create_fails fl i); simpl; [exact Hwf|].
  match goal with |- context [allocateChunks fl g share (S i) ds (memCreate ?c s)] =>
    specialize (IH (S i) (memCreate c s) (wf_memCreate c s eq_refl Hwf));
    destruct (allocateChunks fl g share (S i) ds (memCreate c s)) as [[cs|e] s1]
  end; simpl in *; [exact IH|]. now apply wf_memRelease.
Qed.

Lemma wf_mapChunks fl pl :
  forall i s,
    Forall (fun p => fst p < next_va s) pl ->
    wf s = true -> wf (snd (mapChunks fl i pl s)) = true.
Proof.
  induction pl as [|[addr c] pl IH]; intros i s Hpl Hwf; simpl; [exact Hwf|].
  destruct (map_fails fl i); simpl; [exact Hwf|].
  apply Forall_cons in Hpl as [Ha Hpl]. simpl in Ha.
  match goal with |- context [mapChunks fl (S i) pl ?t] =>
    specialize (IH (S i) t Hpl (wf_memMap addr c s Ha Hwf));
    destruct (mapChunks fl (S i) pl t) as [[u|e] s1]
  end; simpl in *; [exact IH|]. now apply wf_memUnmap.
Qed.

Lemma chunk_sizes_pos (g : CUdevice -> Z) share (devs : list CUdevice) cs :
  0 < share -> Forall (fun d => 0 < g d) devs ->
  map chunk_size cs = map (fun d => round_up share (g d)) devs ->
  Forall (fun c => 0 < chunk_size c) cs.
Proof.
  intros Hs Hg. revert cs.
  induction Hg as [|d ds Hd _ IH]; intros [|c cs] Heq; simpl in Heq;
    try discriminate; constructor.
  - injection Heq as -> _. pose proof (round_up_ge share (g d) Hd). lia.
  - injection Heq as _ Heq. now apply IH.
Qed.

Lemma ceil_div_pos x g : 0 < x -> 0 < g -> 0 < ceil_div x g.
Proof.
  intros Hx Hg. unfold ceil_div.
  apply Z.div_str_pos. lia.
Qed.

Lemma total_size_nonneg cs :
  Forall (fun c => 0 < chunk_size c) cs -> 0 <= total_size cs.
Proof. induction 1 as [|c cs Hc _ IH]; simpl; lia. Qed.

Lemma placements_lt cs :
  Forall (fun c => 0 < chunk_size c) cs ->
  forall addr, Forall (fun p => fst p < addr + total_size cs) (placements addr cs).
Proof.
  induction 1 as [|c cs Hc Hcs IH]; intros addr; simpl; constructor.
  - simpl. pose proof (total_size_nonneg cs Hcs). lia.
  - eapply Forall_impl; [apply (IH (addr + chunk_size c))|].
    simpl. intros p Hp. lia.
Qed.

Lemma wf_allocate fl g v size backingSet mappingSet s :
  valid_request g size backingSet ->
  wf s = true ->
  wf (snd (allocate fl g v size backingSet mappingSet s)) = true.
Proof.
  intros (Hsize & Hne & Hgran) Hwf. unfold allocate.
  set (share := ceil_div size (Z.of_nat (length backingSet))).
  pose proof (wf_allocateChunks fl g share backingSet 0 s Hwf) as Hwf1.
  pose proof (allocateChunks_frame fl g share backingSet 0 s)
    as (_ & _ & _ & Hva1).
  destruct (allocateChunks fl g share 0 backingSet s) as [[cs|e] t1] eqn:E1;
    simpl in *; [|exact Hwf1].
  apply allocateChunks_ok in E1 as (_ & _ & Hsizes).
  unfold reserveRange. destruct (reserve_fails fl); simpl.
  { now apply wf_releaseAll. }
  set (base := round_up (next_va t1) (alignmentOf g backingSet)).
  assert (Hpos : Forall (fun c => 0 < chunk_size c) cs).
  { eapply chunk_sizes_pos; [|exact Hgran|exact Hsizes].
    apply ceil_div_pos; [exact Hsize|].
    destruct backingSet; [congruence | simpl; lia]. }
  assert (Htotal : 0 < total_size cs).
  { destruct Hpos as [|c cs' Hc Hcs]; simpl.
    - destruct backingSet; [congruence | discriminate].
    - pose proof (total_size_nonneg cs' Hcs). lia. }
  assert (Hbase : next_va t1 <= base).
  { apply round_up_ge. pose proof (alignmentOf_pos g backingSet). lia. }
  pose proof (wf_addressReserve base (total_size cs) t1 Hbase Htotal Hwf1) as Hwf2.
  pose proof (wf_mapChunks fl (placements base cs) 0
                (addressReserve base (total_size cs) t1)
                (placements_lt cs Hpos base) Hwf2) as Hwf3.
  pose proof (mapChunks_frame fl (placements base cs) 0
                (addressReserve base (total_size cs) t1))
    as (_ & _ & _ & Hva3 & _).
  destruct (mapChunks fl 0 (placements base cs) _) as [[u|e] t3]; simpl in *.
  - destruct (grantCheck fl v 0 mappingSet); simpl.
    + now apply wf_addressFree, wf_releaseAll, wf_unmapAll.
    + apply wf_register; [|now apply wf_setAccessAll].
      simpl. rewrite setAccessAll_next_va, Hva3. lia.
  - now apply wf_addressFree, wf_releaseAll.
Qed.

Lemma wf_free p size s : wf s = true -> wf (snd (free p size s)) = true.
Proof.
  intros Hwf. unfold free. destruct (registry s !! p); simpl; [|exact Hwf].
  now apply wf_unregister, wf_addressFree, wf_releaseAll, wf_unmapAll.
Qed.

Lemma wf_step_call st c :
  valid_call c -> wf (fst st) = true -> wf (fst (step st c)) = true.
Proof.
  destruct st as [s held], c as [fl g v size bs ms | p size]; simpl; intros Hc Hwf.
  - pose proof (wf_allocate fl g v size bs ms s Hc Hwf) as H.
    destruct (allocate fl g v size bs ms s) as [[r|e] s']; exact H.
  - pose proof (wf_free p size s Hwf) as H.
    destruct (free p size s) as [[u|e] s']; exact H.
Qed.

(** Every state reached from the empty one by valid calls is well formed. *)
Lemma wf_run calls :
  Forall valid_call calls -> wf (fst (run calls)) = true.
Proof.
  unfold run.
  assert (H : forall st, wf (fst st) = true -> Forall valid_call calls ->
                         wf (fst (fold_left step calls st)) = true).
  { induction calls as [|c calls IH]; intros st Hst Hcs; simpl; [exact Hst|].
    apply Forall_cons in Hcs as [Hc Hcs].
    apply IH; [now apply wf_step_call | exact Hcs]. }
  apply H. reflexivity.
Qed.

(** ** Two runs of the program on the allocator *)

(** Two peer devices with virtual-address management, device 0 selected,
    every call succeeding and the kernel producing the sums: the run
    allocates three ranges over both devices, reports PASS, and
    [CleanupNoFailure] leaves the registry and the devices empty. *)
Example main_run_pass :
  exists m',
    main (mallocOn no_faults sample_granularity (fun _ => true)) freeOn
         (quiet_world (table 2 (fun _ _ => true) (fun _ => true)) 0
                      (fun a b i => f32_add (a i) (b i)))
         (start empty_state)
    = (Exit EXIT_SUCCESS, m') /\
    trace m' = [Printf Banner; Printf (VamSupported 0 1); Printf LoadingModule;
                MallocMultiDeviceMmap 200000 [0; 1] [0];
                MallocMultiDeviceMmap 200000 [0; 1] [0];
                MallocMultiDeviceMmap 200000 [0; 1] [0];
                FreeMultiDeviceMmap 65536 233472;
                FreeMultiDeviceMmap 327680 233472;
                FreeMultiDeviceMmap 589824 233472;
                Printf ResultPass] /\
    same_resources empty_state (allocator m').
Proof.
  eexists. split; [vm_compute; reflexivity|].
  split; [reflexivity|]. repeat split.
Qed.

Lemma within_tolerance_nan a b : within_tolerance a b f32_nan = false.
Proof. reflexivity. Qed.

(** C9: the same run with a readback of NaNs.  No index satisfies
    |h_C[i] - (h_A[i] + h_B[i])| <= 1e-7, yet the program prints
    Result = PASS as its last line and exits with [EXIT_SUCCESS]: the test
    [fabs(h_C[i] - sum) > 1e-7f] of line 211 is false on a NaN, so the loop
    under "Verify result" never breaks. *)
Theorem main_reports_pass_on_nan_readback :
  let w := quiet_world (table 2 (fun _ _ => true) (fun _ => true)) 0
                       (fun _ _ => nans) in
  (exists m',
     main (mallocOn no_faults sample_granularity (fun _ => true)) freeOn w
          (start empty_state)
     = (Exit EXIT_SUCCESS, m') /\
     last (trace m') = Some (Printf ResultPass)) /\
  (forall i, 0 <= i < 50000 ->
     within_tolerance (RandomInit w 0 50000 i) (RandomInit w 50000 50000 i)
                      (snd (cuMemcpyDtoH w (RandomInit w 0 50000)
                                           (RandomInit w 50000 50000)) i)
     = false).
Proof.
  intros w. split.
  - eexists. split; [vm_compute; reflexivity|]. reflexivity.
  - intros i _. apply within_tolerance_nan.
Qed.

(** * Further properties of the code *)

(** ** getBackingDevices: what is returned, and when *)

(** Whenever the loop returns, it has appended the ordinals it keeps: no
    assumption on the driver is needed, a failed query would have ended the
    run. *)
Lemma getBackingDevices_loop_Ret drv d :
  forall fuel dev acc l,
    getBackingDevices_loop drv d fuel dev acc = Ret l ->
    l = acc ++ List.filter (loop_keeps drv d) (enumerate dev fuel).
Proof.
  induction fuel as [|fuel IH]; intros dev acc l H; simpl in H.
  - injection H as <-. now rewrite app_nil_r.
  - simpl. unfold loop_keeps at 1, canAccessPeer, supportsVirtualAddressManagement.
    destruct (dev =? d); simpl; [now apply IH|].
    unfold checkCudaErrors in H.
    destruct (fst (cuDeviceCanAccessPeer drv d dev) =? CUDA_SUCCESS);
      simpl in H; [|discriminate].
    destruct (snd (cuDeviceCanAccessPeer drv d dev) =? 0); simpl;
      [now apply IH|].
    destruct (fst (cuDeviceGetAttribute_VAM drv d) =? CUDA_SUCCESS);
      simpl in H; [|discriminate].
    destruct (snd (cuDeviceGetAttribute_VAM drv d) =? 0); simpl;
      [now apply IH|].
    apply IH in H. now rewrite <- app_assoc in H.
Qed.

Lemma getBackingDevices_Ret drv d l :
  getBackingDevices drv d = Ret l ->
  l = d :: List.filter (loop_keeps drv d) (knownDevices drv).
Proof.
  unfold getBackingDevices, checkCudaErrors.
  destruct (fst (cuDeviceGetCount drv) =? CUDA_SUCCESS); simpl; [|discriminate].
  intros H. now apply getBackingDevices_loop_Ret in H.
Qed.

(** The loop leaves only through [checkCudaErrors]. *)
Lemma getBackingDevices_loop_Exit drv d :
  forall fuel dev acc c,
    getBackingDevices_loop drv d fuel dev acc = Exit c -> c = EXIT_FAILURE.
Proof.
  induction fuel as [|fuel IH]; intros dev acc c H; simpl in H; [discriminate|].
  destruct (dev =? d); [now apply IH in H|].
  unfold checkCudaErrors in H.
  destruct (fst (cuDeviceCanAccessPeer drv d dev) =? CUDA_SUCCESS);
    simpl in H; [|congruence].
  destruct (snd (cuDeviceCanAccessPeer drv d dev) =? 0); [now apply IH in H|].
  destruct (fst (cuDeviceGetAttribute_VAM drv d) =? CUDA_SUCCESS);
    simpl in H; [|congruence].
  destruct (snd (cuDeviceGetAttribute_VAM drv d) =? 0); now apply IH in H.
Qed.

Lemma getBackingDevices_Exit drv d c :
  getBackingDevices drv d = Exit c -> c = EXIT_FAILURE.
Proof.
  unfold getBackingDevices, checkCudaErrors.
  destruct (fst (cuDeviceGetCount drv) =? CUDA_SUCCESS); simpl; [|congruence].
  apply getBackingDevices_loop_Exit.
Qed.

(** The loop returns exactly when the queries it gets to make succeed. *)
Lemma getBackingDevices_loop_returns drv d :
  forall fuel dev acc,
    (exists l, getBackingDevices_loop drv d fuel dev acc = Ret l) <->
    (forall k, dev <= k < dev + Z.of_nat fuel -> k <> d ->
               fst (cuDeviceCanAccessPeer drv d k) = CUDA_SUCCESS) /\
    ((exists k, dev <= k < dev + Z.of_nat fuel /\ k <> d /\
                canAccessPeer drv d k = true) ->
     fst (cuDeviceGetAttribute_VAM drv d) = CUDA_SUCCESS).
Proof.
  induction fuel as [|fuel IH]; intros dev acc.
  - simpl. split; [intros _ | eauto].
    split; [intros k Hk; lia | intros (k & Hk & _); lia].
  - simpl getBackingDevices_loop. unfold checkCudaErrors.
    (* the first ordinal of the range, apart *)
    assert (Hsplit : forall k, dev <= k < dev + Z.of_nat (S fuel) ->
                               k = dev \/ dev + 1 <= k < dev + 1 + Z.of_nat fuel)
      by (intros k Hk; lia).
    assert (Hsub : forall k, dev + 1 <= k < dev + 1 + Z.of_nat fuel ->
                             dev <= k < dev + Z.of_nat (S fuel))
      by (intros k Hk; lia).
    assert (Hdev : dev <= dev < dev + Z.of_nat (S fuel)) by lia.
    destruct (Z.eqb_spec dev d) as [Heq|Hne].
    { rewrite IH. split; intros [Hp Ha]; split.
      - intros k Hk Hkd. destruct (Hsplit k Hk) as [->|Hk']; [contradiction|].
        now apply Hp.
      - intros (k & Hk & Hkd & Hc). apply Ha. exists k.
        destruct (Hsplit k Hk) as [->|Hk']; [contradiction|]. auto.
      - intros k Hk Hkd. apply Hp; auto.
      - intros (k & Hk & Hkd & Hc). apply Ha. exists k. auto. }
    destruct (Z.eqb_spec (fst (cuDeviceCanAccessPeer drv d dev)) CUDA_SUCCESS)
      as [Hs|Hs]; simpl.
    2:{ split; [intros [l Hl]; discriminate|].
        intros [Hp _]. exfalso. apply Hs, Hp; [exact Hdev|exact Hne]. }
    destruct (Z.eqb_spec (snd (cuDeviceCanAccessPeer drv d dev)) 0) as [Hc|Hc];
      simpl.
    { rewrite IH. split; intros [Hp Ha]; split.
      - intros k Hk Hkd. destruct (Hsplit k Hk) as [->|Hk']; [exact Hs|].
        now apply Hp.
      - intros (k & Hk & Hkd & Hck). apply Ha. exists k.
        destruct (Hsplit k Hk) as [->|Hk']; [|auto].
        unfold canAccessPeer in Hck. rewrite Hc in Hck. discriminate.
      - intros k Hk Hkd. apply Hp; auto.
      - intros (k & Hk & Hkd & Hck). apply Ha. exists k. auto. }
    assert (Hcap : canAccessPeer drv d dev = true).
    { apply negb_true_iff, Z.eqb_neq, Hc. }
    destruct (Z.eqb_spec (fst (cuDeviceGetAttribute_VAM drv d)) CUDA_SUCCESS)
      as [Ha0|Ha0]; simpl.
    2:{ split; [intros [l Hl]; discriminate|].
        intros [_ Ha]. exfalso. apply Ha0, Ha. exists dev. auto. }
    destruct (snd (cuDeviceGetAttribute_VAM drv d) =? 0);
      rewrite IH; (split; intros [Hp _]; (split; [|intros _; exact Ha0]));
      intros k Hk Hkd;
      solve [ destruct (Hsplit k Hk) as [->|Hk']; [exact Hs | now apply Hp]
            | apply Hp; auto ].
Qed.

(** X1: [getBackingDevices] returns a sequence exactly when the device
    count, the peer query from [d] to every other known device and, if one
    of those devices is peer-capable, the attribute query on [d] succeed;
    otherwise it leaves with [EXIT_FAILURE], never with another code. *)
Theorem getBackingDevices_returns_iff_queries_succeed :
  forall (drv : Driver) (d : CUdevice),
    ((exists l, getBackingDevices drv d = Ret l) <-> queries_succeed drv d) /\
    (getBackingDevices drv d = Exit EXIT_FAILURE \/
     exists l, getBackingDevices drv d = Ret l).
Proof.
  intros drv d. split.
  - unfold getBackingDevices, queries_succeed, checkCudaErrors.
    destruct (Z.eqb_spec (fst (cuDeviceGetCount drv)) CUDA_SUCCESS) as [Hc|Hc];
      simpl.
    + rewrite getBackingDevices_loop_returns. unfold num_devices.
      split; intros [Hp Ha]; [split; [exact Hc|split]|destruct Ha as [Hp' Ha]; split].
      * intros k Hk. apply Hp. lia.
      * intros (k & Hk & Hkd). apply Ha. exists k. split; [lia|exact Hkd].
      * intros k Hk. apply Hp'. lia.
      * intros (k & Hk & Hkd). apply Ha. exists k. split; [lia|exact Hkd].
    + split; [intros [l Hl]; discriminate | intros [Hc' _]; contradiction].
  - destruct (getBackingDevices drv d) as [l|c] eqn:H; [right; eauto|].
    left. apply getBackingDevices_Exit in H. now subst.
Qed.

Lemma enumerate_sorted from n : StronglySorted Z.lt (enumerate from n).
Proof.
  revert from; induction n as [|n IH]; intros from; simpl; constructor.
  - apply IH.
  - apply Forall_forall. intros x Hx.
    apply list_elem_of_In, In_enumerate in Hx. lia.
Qed.

Lemma filter_sorted (f : Z -> bool) l :
  StronglySorted Z.lt l -> StronglySorted Z.lt (List.filter f l).
Proof.
  induction 1 as [|x l Hl IH Hx]; simpl; [constructor|].
  destruct (f x); [|exact IH]. constructor; [exact IH|].
  apply Forall_forall. intros y Hy.
  apply list_elem_of_In, filter_In in Hy as [Hy _].
  rewrite Forall_forall in Hx. now apply Hx, list_elem_of_In.
Qed.

(** X2: in a returned sequence the devices after [d] are in strictly
    ascending order, are known ordinals other than [d], and each is
    peer-accessible from [d]. *)
Theorem getBackingDevices_rest_ascending_known_peers :
  forall (drv : Driver) (d : CUdevice) (l : list CUdevice),
    getBackingDevices drv d = Ret l ->
    exists rest,
      l = d :: rest /\
      StronglySorted Z.lt rest /\
      (forall dev, In dev rest ->
         0 <= dev < num_devices drv /\ dev <> d /\
         canAccessPeer drv d dev = true).
Proof.
  intros drv d l H. apply getBackingDevices_Ret in H. eexists.
  split; [exact H|]. split.
  - apply filter_sorted, enumerate_sorted.
  - intros dev Hin. apply filter_In in Hin as [Hin Hk].
    apply In_enumerate in Hin. split; [unfold num_devices in *; lia|]. split.
    + now apply (loop_keeps_other drv d).
    + now apply loop_keeps_peer in Hk.
Qed.

Lemma getBackingDevices_rest_ascending_known_peers_witness :
  getBackingDevices three_devices 1 = Ret [1; 0; 2] /\
  exists rest,
    [1; 0; 2] = 1 :: rest /\
    StronglySorted Z.lt rest /\
    (forall dev, In dev rest ->
       0 <= dev < num_devices three_devices /\ dev <> 1 /\
       canAccessPeer three_devices 1 dev = true).
Proof.
  assert (H : getBackingDevices three_devices 1 = Ret [1; 0; 2]) by reflexivity.
  split; [exact H|].
  apply (getBackingDevices_rest_ascending_known_peers three_devices 1 _ H).
Defined.

Lemma filter_length_le {A} (f : A -> bool) l :
  (length (List.filter f l) <= length l)%nat.
Proof. induction l as [|x l IH]; simpl; [lia|]. destruct (f x); simpl; lia. Qed.

Lemma filter_length_lt {A} (f : A -> bool) l x :
  In x l -> f x = false -> (length (List.filter f l) < length l)%nat.
Proof.
  induction l as [|y l IH]; simpl; [tauto|]. intros [->|Hin] Hf.
  - rewrite Hf. pose proof (filter_length_le f l). lia.
  - specialize (IH Hin Hf). destruct (f y); simpl; lia.
Qed.

Lemma enumerate_length from n : length (enumerate from n) = n.
Proof. revert from; induction n as [|n IH]; intros from; simpl; auto. Qed.

(** X3: a returned sequence has at most one device more than the driver
    counts, and no more than the driver counts when [d] is itself a known
    ordinal. *)
Theorem getBackingDevices_length_bound :
  forall (drv : Driver) (d : CUdevice) (l : list CUdevice),
    getBackingDevices drv d = Ret l ->
    Z.of_nat (length l) <= 1 + Z.max 0 (num_devices drv) /\
    (0 <= d < num_devices drv -> Z.of_nat (length l) <= num_devices drv).
Proof.
  intros drv d l H. apply getBackingDevices_Ret in H. subst l. simpl length.
  split.
  - pose proof (filter_length_le (loop_keeps drv d) (knownDevices drv)) as Hle.
    unfold knownDevices in Hle at 2. rewrite enumerate_length in Hle. lia.
  - intros Hd.
    assert (Hin : In d (knownDevices drv)).
    { apply In_enumerate. lia. }
    assert (Hf : loop_keeps drv d d = false).
    { unfold loop_keeps. now rewrite Z.eqb_refl. }
    pose proof (filter_length_lt _ _ _ Hin Hf) as Hlt.
    unfold knownDevices in Hlt at 2. rewrite enumerate_length in Hlt. lia.
Qed.

Lemma getBackingDevices_length_bound_witness :
  getBackingDevices three_devices 1 = Ret [1; 0; 2] /\
  Z.of_nat (length [1; 0; 2]) <= 1 + Z.max 0 (num_devices three_devices) /\
  (0 <= 1 < num_devices three_devices ->
   Z.of_nat (length [1; 0; 2]) <= num_devices three_devices).
Proof.
  assert (H : getBackingDevices three_devices 1 = Ret [1; 0; 2]) by reflexivity.
  split; [exact H|].
  apply (getBackingDevices_length_bound three_devices 1 _ H).
Defined.

Lemma filter_ext_known {A} (f g : A -> bool) l :
  (forall x, In x l -> f x = g x) -> List.filter f l = List.filter g l.
Proof.
  induction l as [|x l IH]; intros H; simpl; [reflexivity|].
  rewrite (H x) by (left; reflexivity).
  rewrite IH by (intros y Hy; apply H; right; exact Hy). reflexivity.
Qed.

(** X4: when the mapping device supports virtual-address management, the
    returned sequence is [d] followed by all its known peers in enumeration
    order, whatever their own capability. *)
Theorem getBackingDevices_all_peers_when_mapping_device_has_vam :
  forall (drv : Driver) (d : CUdevice),
    driver_ok drv d ->
    supportsVirtualAddressManagement drv d = true ->
    getBackingDevices drv d = Ret (d :: peersOf drv d).
Proof.
  intros drv d Hok Hvam. rewrite (getBackingDevices_filter drv d Hok).
  unfold peersOf, loop_keeps. rewrite Hvam. do 2 f_equal.
  apply filter_ext_known. intros x _. now rewrite andb_true_r.
Qed.

Lemma getBackingDevices_all_peers_when_mapping_device_has_vam_witness :
  driver_ok three_devices 1 /\
  supportsVirtualAddressManagement three_devices 1 = true /\
  getBackingDevices three_devices 1 = Ret (1 :: peersOf three_devices 1).
Proof.
  assert (Hok : driver_ok three_devices 1) by (apply driver_ok_table; lia).
  assert (Hv : supportsVirtualAddressManagement three_devices 1 = true)
    by reflexivity.
  split; [exact Hok|]. split; [exact Hv|].
  apply (getBackingDevices_all_peers_when_mapping_device_has_vam
           three_devices 1 Hok Hv).
Defined.

(** X5: when the mapping device lacks virtual-address management, the
    returned sequence is [d] alone, however many peers it has. *)
Theorem getBackingDevices_alone_when_mapping_device_lacks_vam :
  forall (drv : Driver) (d : CUdevice),
    driver_ok drv d ->
    supportsVirtualAddressManagement drv d = false ->
    getBackingDevices drv d = Ret [d].
Proof.
  intros drv d Hok Hvam. rewrite (getBackingDevices_filter drv d Hok).
  do 2 f_equal. unfold loop_keeps. rewrite Hvam.
  induction (knownDevices drv) as [|x l IH]; simpl; [reflexivity|].
  now rewrite andb_false_r.
Qed.

Lemma getBackingDevices_alone_when_mapping_device_lacks_vam_witness :
  driver_ok two_devices 1 /\
  supportsVirtualAddressManagement two_devices 1 = false /\
  getBackingDevices two_devices 1 = Ret [1].
Proof.
  assert (Hok : driver_ok two_devices 1) by (apply driver_ok_table; lia).
  assert (Hv : supportsVirtualAddressManagement two_devices 1 = false)
    by reflexivity.
  split; [exact Hok|]. split; [exact Hv|].
  apply (getBackingDevices_alone_when_mapping_device_lacks_vam
           two_devices 1 Hok Hv).
Defined.

(** X6: the code meets the contract of section 4.1 on every table where
    each known peer of [d] has the same virtual-address-management
    capability as [d] itself. *)
Theorem getBackingDevices_meets_contract_on_uniform_tables :
  forall (drv : Driver) (d : CUdevice),
    driver_ok drv d ->
    (forall dev, 0 <= dev < num_devices drv -> dev <> d ->
       canAccessPeer drv d dev = true ->
       supportsVirtualAddressManagement drv dev
       = supportsVirtualAddressManagement drv d) ->
    getBackingDevices drv d = Ret (backingDevicesFor_spec drv d).
Proof.
  intros drv d Hok Huni. rewrite (getBackingDevices_filter drv d Hok).
  unfold backingDevicesFor_spec. do 2 f_equal.
  apply filter_ext_known. intros x Hx. unfold loop_keeps.
  apply In_enumerate in Hx.
  destruct (Z.eqb_spec x d) as [|Hne]; simpl; [reflexivity|].
  destruct (canAccessPeer drv d x) eqn:Hp; simpl; [|reflexivity].
  symmetry. apply Huni; [lia | exact Hne | exact Hp].
Qed.

Lemma getBackingDevices_meets_contract_on_uniform_tables_witness :
  let drv := table 3 (fun a b => negb (b =? 2)) (fun _ => true) in
  driver_ok drv 0 /\
  (forall dev, 0 <= dev < num_devices drv -> dev <> 0 ->
     canAccessPeer drv 0 dev = true ->
     supportsVirtualAddressManagement drv dev
     = supportsVirtualAddressManagement drv 0) /\
  getBackingDevices drv 0 = Ret (backingDevicesFor_spec drv 0).
Proof.
  intros drv.
  assert (Hok : driver_ok drv 0) by (apply driver_ok_table; lia).
  assert (Huni : forall dev, 0 <= dev < num_devices drv -> dev <> 0 ->
            canAccessPeer drv 0 dev = true ->
            supportsVirtualAddressManagement drv dev
            = supportsVirtualAddressManagement drv 0).
  { intros dev Hd _ _. change (num_devices drv) with 3 in Hd.
    assert (Hc : dev = 0 \/ dev = 1 \/ dev = 2) by lia.
    destruct Hc as [->|[->| ->]]; reflexivity. }
  split; [exact Hok|]. split; [exact Huni|].
  apply (getBackingDevices_meets_contract_on_uniform_tables drv 0 Hok Huni).
Defined.

(** With no peer-capable device the attribute query is never made, so its
    failure goes unnoticed. *)
Example getBackingDevices_isolated :
  getBackingDevices isolated_devices 0 = Ret [0] /\
  queries_succeed isolated_devices 0 /\
  ~ driver_ok isolated_devices 0.
Proof.
  split; [reflexivity|]. split.
  - repeat split. intros (dev & _ & _ & Hc). discriminate Hc.
  - intros (_ & _ & H). discriminate H.
Qed.

(** ** The verification loop: where it stops *)

Lemma verify_loop_first_excess h_A h_B h_C :
  forall fuel i,
    let r := verify_loop h_A h_B h_C fuel i in
    i <= r <= i + Z.of_nat fuel /\
    (forall k, i <= k < r -> exceeds_tolerance (h_A k) (h_B k) (h_C k) = false) /\
    (r < i + Z.of_nat fuel ->
     exceeds_tolerance (h_A r) (h_B r) (h_C r) = true).
Proof.
  induction fuel as [|fuel IH]; intros i; simpl.
  - split; [lia|]. split; [intros k Hk; lia | intros H; lia].
  - destruct (exceeds_tolerance (h_A i) (h_B i) (h_C i)) eqn:Hi.
    + split; [lia|]. split; [intros k Hk; lia | intros _; exact Hi].
    + destruct (IH (i + 1)) as (Hr & Hbelow & Hat).
      split; [lia|]. split.
      * intros k Hk. destruct (Z.eq_dec k i) as [->|]; [exact Hi|].
        apply Hbelow. lia.
      * intros Hlt. apply Hat. lia.
Qed.

(** X7: the loop stops at the first index whose difference exceeds the
    tolerance: the final [i] lies in [0, N], no index below it exceeds, and
    when it is below [N] the element at [i] does. *)
Theorem verify_stops_at_first_excess :
  forall (N : Z) (h_A h_B h_C : HostArray),
    0 <= N ->
    0 <= verify N h_A h_B h_C <= N /\
    (forall k, 0 <= k < verify N h_A h_B h_C ->
       exceeds_tolerance (h_A k) (h_B k) (h_C k) = false) /\
    (verify N h_A h_B h_C < N ->
     exceeds_tolerance (h_A (verify N h_A h_B h_C))
                       (h_B (verify N h_A h_B h_C))
                       (h_C (verify N h_A h_B h_C)) = true).
Proof.
  intros N h_A h_B h_C HN. unfold verify.
  pose proof (verify_loop_first_excess h_A h_B h_C (Z.to_nat N) 0) as H.
  simpl in H. rewrite Z2Nat.id in H by exact HN. exact H.
Qed.

Lemma verify_stops_at_first_excess_witness :
  let h_C : HostArray := fun i => if i =? 3 then f32_of_int 1 else f32_zero in
  0 <= 50000 /\
  0 <= verify 50000 zeros zeros h_C <= 50000 /\
  (forall k, 0 <= k < verify 50000 zeros zeros h_C ->
     exceeds_tolerance (zeros k) (zeros k) (h_C k) = false) /\
  (verify 50000 zeros zeros h_C < 50000 ->
   exceeds_tolerance (zeros (verify 50000 zeros zeros h_C))
                     (zeros (verify 50000 zeros zeros h_C))
                     (h_C (verify 50000 zeros zeros h_C)) = true).
Proof.
  intros h_C. split; [lia|].
  apply (verify_stops_at_first_excess 50000 zeros zeros h_C). lia.
Defined.

Lemma SFsub_diag x :
  SFsub 24 128 x x = S754_zero false \/ SFsub 24 128 x x = S754_nan.
Proof.
  destruct x as [s|s| |s m e]; simpl.
  - left. destruct s; reflexivity.
  - right. destruct s; reflexivity.
  - right. reflexivity.
  - left. rewrite Z.sub_diag. reflexivity.
Qed.

(** X8: a result equal to the single-precision sum is never rejected, for
    any inputs whatever (finite, infinite or NaN): a readback that holds
    [h_A[i] + h_B[i]] at every index is reported PASS. *)
Theorem verify_accepts_the_sums :
  forall (h_A h_B h_C : HostArray),
    (forall i, 0 <= i < 50000 -> h_C i = f32_add (h_A i) (h_B i)) ->
    result_line (verify 50000 h_A h_B h_C) 50000 = ResultPass /\
    result_code (verify 50000 h_A h_B h_C) 50000 = EXIT_SUCCESS.
Proof.
  intros h_A h_B h_C Hsum.
  assert (Hv : verify 50000 h_A h_B h_C = 50000).
  { apply verify_accepts_iff; [lia|]. intros i Hi.
    unfold exceeds_tolerance. rewrite (Hsum i Hi).
    unfold f32_sub, f32_gt, f32_abs, tol_1e_7f.
    destruct (SFsub_diag (f32_add (h_A i) (h_B i))) as [-> | ->]; reflexivity. }
  rewrite Hv. split; reflexivity.
Qed.

Lemma verify_accepts_the_sums_witness :
  let h_A : HostArray := fun i => f32_of_int i in
  let h_B : HostArray := fun i => f32_of_int (2 * i) in
  let h_C : HostArray := fun i => f32_add (h_A i) (h_B i) in
  (forall i, 0 <= i < 50000 -> h_C i = f32_add (h_A i) (h_B i)) /\
  result_line (verify 50000 h_A h_B h_C) 50000 = ResultPass /\
  result_code (verify 50000 h_A h_B h_C) 50000 = EXIT_SUCCESS.
Proof.
  intros h_A h_B h_C.
  assert (H : forall i, 0 <= i < 50000 -> h_C i = f32_add (h_A i) (h_B i))
    by (intros i _; reflexivity).
  split; [exact H|].
  apply (verify_accepts_the_sums h_A h_B h_C H).
Defined.

(** ** The program: symbolic execution

    [main] is a chain of checked steps.  [run_main] follows it from the
    first step, splitting at each test on the way; every path ends in an
    [exit] with the trace and the allocator state written out. *)
Ltac head_scrutinee t :=
  lazymatch t with
  | match ?x with _ => _ end => head_scrutinee x
  | ?f ?a => lazymatch f with
             | match ?x with _ => _ end => head_scrutinee x
             | _ => t
             end
  | _ => t
  end.

Ltac exec_in H :=
  cbn beta iota zeta delta [fst snd allocator trace] in H;
  lazymatch type of H with
  | ?lhs = _ =>
    lazymatch lhs with
    | (_, _) => idtac
    | _ => let x := head_scrutinee lhs in
           destruct x eqn:?; exec_in H
    end
  end.

Ltac run_main H :=
  unfold main, CleanupNoFailure, malloc_checked, free_checked, bind, printf,
    emit, check_, check, liftO, ret, exit, checkCudaErrors in H;
  exec_in H;
  injection H as <- <-;
  change (50000 * 4) with 200000 in *;
  cbn [fst snd allocator trace].

Ltac use_calls :=
  cbn [fst snd];
  repeat match goal with
         | Hm : _ = (_, _) |- _ => rewrite Hm; cbn [fst snd]
         end.

(** A sequence returned for a mapping device with virtual-address
    management is that device followed by its known peers. *)
Lemma peers_of_returned drv d bs :
  getBackingDevices drv d = Ret bs ->
  supportsVirtualAddressManagement drv d = true ->
  bs = d :: peersOf drv d.
Proof.
  intros H Hv. apply getBackingDevices_Ret in H. subst bs. f_equal.
  unfold peersOf, loop_keeps. rewrite Hv.
  apply filter_ext_known. intros x _. now rewrite andb_true_r.
Qed.

(** X10: in every run of [main], with any allocator, the calls into the
    allocator are an initial part of one fixed sequence: three allocations
    of 200000 bytes with mapping set [dev] and backing set [dev] followed by
    all the known peers of [dev], then the frees of the three pointers
    returned, each with the size reported by the first allocation.  When a
    call is made at all, the selected device supports virtual-address
    management. *)
Theorem main_allocator_calls :
  forall (AllocatorState : Type)
    (simpleMallocMultiDeviceMmap :
       Z -> list CUdevice -> list CUdevice -> AllocatorState ->
       (CUresult * (CUdeviceptr * Z)) * AllocatorState)
    (simpleFreeMultiDeviceMmap :
       CUdeviceptr -> Z -> AllocatorState -> CUresult * AllocatorState)
    (w : World) (m : Machine),
  exists evs,
    trace (snd (main simpleMallocMultiDeviceMmap simpleFreeMultiDeviceMmap w m))
    = trace m ++ evs /\
    (allocator_calls evs = [] \/
     exists dev rest,
       findCudaDeviceDRV w = Ret dev /\
       supportsVirtualAddressManagement (driver w) dev = true /\
       getBackingDevices (driver w) dev = Ret (dev :: peersOf (driver w) dev) /\
       expected_calls simpleMallocMultiDeviceMmap (allocator m) dev
                      (dev :: peersOf (driver w) dev)
       = allocator_calls evs ++ rest).
Proof.
  intros St malloc free w m.
  destruct (main malloc free w m) as [o m'] eqn:H.
  run_main H.
  all: eexists; (split; [rewrite <- ?app_assoc; simpl; reflexivity|]).
  all: try (left; reflexivity).
  all: right.
  all: match goal with
       | Hf : findCudaDeviceDRV ?w0 = Ret ?dev,
         Hv : (snd (cuDeviceGetAttribute_VAM (driver ?w0) ?dev) =? 0) = false,
         Hb : getBackingDevices (driver ?w0) ?dev = Ret ?bs |- _ =>
         assert (Hvam : supportsVirtualAddressManagement (driver w0) dev = true)
           by (unfold supportsVirtualAddressManagement; rewrite Hv; reflexivity);
         pose proof (peers_of_returned _ _ _ Hb Hvam) as Hbs; subst bs;
         exists dev; eexists;
         (split; [first [exact Hf | reflexivity]|]); (split; [exact Hvam|]);
         (split; [exact Hb|])
       end.
  all: unfold expected_calls; use_calls; simpl; reflexivity.
Qed.

Ltac eqb_facts :=
  repeat match goal with
         | Hq : (_ =? _) = true |- _ => apply Z.eqb_eq in Hq
         | Hq : (_ =? _) = false |- _ => apply Z.eqb_neq in Hq
         | Hq : negb _ = false |- _ => apply negb_false_iff in Hq
         | Hq : negb _ = true |- _ => apply negb_true_iff in Hq
         end.

(** X11: [main] calls the allocator only after every set-up step succeeded
    (driver initialisation, device selection, the capability query with a
    non-zero answer, the topology probe, context creation, the fatbin found
    and non-empty, the module and its kernel loaded); a run without
    allocator calls leaves the allocator state as it was. *)
Theorem main_allocates_only_after_setup :
  forall (AllocatorState : Type)
    (simpleMallocMultiDeviceMmap :
       Z -> list CUdevice -> list CUdevice -> AllocatorState ->
       (CUresult * (CUdeviceptr * Z)) * AllocatorState)
    (simpleFreeMultiDeviceMmap :
       CUdeviceptr -> Z -> AllocatorState -> CUresult * AllocatorState)
    (w : World) (m : Machine),
  exists evs,
    trace (snd (main simpleMallocMultiDeviceMmap simpleFreeMultiDeviceMmap w m))
    = trace m ++ evs /\
    (allocator_calls evs = [] ->
     allocator (snd (main simpleMallocMultiDeviceMmap simpleFreeMultiDeviceMmap w m))
     = allocator m) /\
    (allocator_calls evs <> [] ->
     cuInit w = CUDA_SUCCESS /\
     cuCtxCreate w = CUDA_SUCCESS /\
     findFatbinPath w = true /\
     fatbin_size w <> 0 /\
     cuModuleLoadData w = CUDA_SUCCESS /\
     cuModuleGetFunction w = CUDA_SUCCESS /\
     exists dev bs,
       findCudaDeviceDRV w = Ret dev /\
       fst (cuDeviceGetAttribute_VAM (driver w) dev) = CUDA_SUCCESS /\
       snd (cuDeviceGetAttribute_VAM (driver w) dev) <> 0 /\
       getBackingDevices (driver w) dev = Ret bs).
Proof.
  intros St malloc free w m.
  destruct (main malloc free w m) as [o m'] eqn:H.
  run_main H.
  all: eexists; (split; [rewrite <- ?app_assoc; simpl; reflexivity|]).
  all: split; [intros Hnil; first [reflexivity | discriminate Hnil]|].
  all: intros Hcalls; try (exfalso; apply Hcalls; reflexivity).
  all: eqb_facts; repeat (split; [assumption|]).
  all: eexists; eexists; split; [reflexivity|].
  all: repeat (split; [eassumption|]); eassumption.
Qed.

(** X12: provided the device-selection helper does not itself end the
    process with [EXIT_SUCCESS], [main] exits with [EXIT_SUCCESS] exactly
    when the last line it printed is the PASS line. *)
Theorem main_exit_success_iff_pass_reported :
  forall (AllocatorState : Type)
    (simpleMallocMultiDeviceMmap :
       Z -> list CUdevice -> list CUdevice -> AllocatorState ->
       (CUresult * (CUdeviceptr * Z)) * AllocatorState)
    (simpleFreeMultiDeviceMmap :
       CUdeviceptr -> Z -> AllocatorState -> CUresult * AllocatorState)
    (w : World) (m : Machine),
    findCudaDeviceDRV w <> Exit EXIT_SUCCESS ->
    (fst (main simpleMallocMultiDeviceMmap simpleFreeMultiDeviceMmap w m)
     = Exit EXIT_SUCCESS <->
     last (trace (snd (main simpleMallocMultiDeviceMmap
                            simpleFreeMultiDeviceMmap w m)))
     = Some (Printf ResultPass)).
Proof.
  intros St malloc free w m Hfind.
  destruct (main malloc free w m) as [o m'] eqn:H.
  run_main H.
  all: rewrite last_snoc.
  all: try match goal with
           | Hb : getBackingDevices _ _ = Exit _ |- _ =>
             apply getBackingDevices_Exit in Hb; subst
           end.
  all: try (unfold result_code, result_line;
            destruct (verify _ _ _ _ =? 50000)).
  all: split; intros Hx;
       first [reflexivity | discriminate Hx | congruence].
Qed.

(** X13: a result line is printed only as the last event of a run that
    made all six allocator calls and destroyed the context; it reports the
    verification of the readback against the two arrays drawn by
    [RandomInit] (the first 50000 and the next 50000 values of [rand()]),
    and the exit status agrees with it. *)
Theorem main_result_line_only_after_cleanup :
  forall (AllocatorState : Type)
    (simpleMallocMultiDeviceMmap :
       Z -> list CUdevice -> list CUdevice -> AllocatorState ->
       (CUresult * (CUdeviceptr * Z)) * AllocatorState)
    (simpleFreeMultiDeviceMmap :
       CUdeviceptr -> Z -> AllocatorState -> CUresult * AllocatorState)
    (w : World) (m : Machine),
  exists evs,
    trace (snd (main simpleMallocMultiDeviceMmap simpleFreeMultiDeviceMmap w m))
    = trace m ++ evs /\
    forall e, In e evs -> is_result e = true ->
      exists dev,
        findCudaDeviceDRV w = Ret dev /\
        allocator_calls evs
        = expected_calls simpleMallocMultiDeviceMmap (allocator m) dev
                         (dev :: peersOf (driver w) dev) /\
        cuCtxDestroy w = CUDA_SUCCESS /\
        let h_A := RandomInit w 0 50000 in
        let h_B := RandomInit w 50000 50000 in
        let i := verify 50000 h_A h_B (snd (cuMemcpyDtoH w h_A h_B)) in
        e = Printf (result_line i 50000) /\
        last evs = Some e /\
        fst (main simpleMallocMultiDeviceMmap simpleFreeMultiDeviceMmap w m)
        = Exit (result_code i 50000).
Proof.
  intros St malloc free w m.
  destruct (main malloc free w m) as [o m'] eqn:H.
  run_main H.
  all: eexists; (split; [rewrite <- ?app_assoc; simpl; reflexivity|]).
  all: intros e Hin Hres.
  all: simpl in Hin;
       repeat (destruct Hin as [Hin|Hin];
               [try (subst e; discriminate Hres)|]);
       try contradiction.
  match goal with
  | Hf : findCudaDeviceDRV ?w0 = Ret ?dev,
    Hv : (snd (cuDeviceGetAttribute_VAM (driver ?w0) ?dev) =? 0) = false,
    Hb : getBackingDevices (driver ?w0) ?dev = Ret ?bs |- _ =>
    assert (Hvam : supportsVirtualAddressManagement (driver w0) dev = true)
      by (unfold supportsVirtualAddressManagement; rewrite Hv; reflexivity);
    pose proof (peers_of_returned _ _ _ Hb Hvam) as Hbs; subst bs;
    exists dev
  end.
  split; [reflexivity|]. split.
  { unfold expected_calls. use_calls. reflexivity. }
  eqb_facts. split; [assumption|]. subst e. repeat split.
Qed.

(** X16: [CleanupNoFailure] returns [EXIT_SUCCESS] exactly when the three
    frees and the context destruction succeed, and otherwise ends the
    process with [EXIT_FAILURE]; it stops at the first free that fails, so
    the pointers after it are never handed to the allocator. *)
Theorem CleanupNoFailure_stops_at_first_failure :
  forall (AllocatorState : Type)
    (simpleFreeMultiDeviceMmap :
       CUdeviceptr -> Z -> AllocatorState -> CUresult * AllocatorState)
    (w : World) (d_A d_B d_C : CUdeviceptr) (allocationSize : Z)
    (m : Machine),
    let r1 := simpleFreeMultiDeviceMmap d_A allocationSize (allocator m) in
    let r2 := simpleFreeMultiDeviceMmap d_B allocationSize (snd r1) in
    let r3 := simpleFreeMultiDeviceMmap d_C allocationSize (snd r2) in
    let run := CleanupNoFailure simpleFreeMultiDeviceMmap w d_A d_B d_C
                                allocationSize m in
    (fst run = Ret EXIT_SUCCESS <->
     fst r1 = CUDA_SUCCESS /\ fst r2 = CUDA_SUCCESS /\ fst r3 = CUDA_SUCCESS /\
     cuCtxDestroy w = CUDA_SUCCESS) /\
    (fst run = Ret EXIT_SUCCESS \/ fst run = Exit EXIT_FAILURE) /\
    (fst r1 <> CUDA_SUCCESS ->
     snd run = {| allocator := snd r1;
                  trace := trace m ++ [FreeMultiDeviceMmap d_A allocationSize] |}) /\
    (fst r1 = CUDA_SUCCESS -> fst r2 <> CUDA_SUCCESS ->
     snd run = {| allocator := snd r2;
                  trace := trace m ++ [FreeMultiDeviceMmap d_A allocationSize;
                                       FreeMultiDeviceMmap d_B allocationSize] |}) /\
    (fst r1 = CUDA_SUCCESS -> fst r2 = CUDA_SUCCESS ->
     snd run = {| allocator := snd r3;
                  trace := trace m ++ [FreeMultiDeviceMmap d_A allocationSize;
                                       FreeMultiDeviceMmap d_B allocationSize;
                                       FreeMultiDeviceMmap d_C allocationSize] |}).
Proof.
  intros St free w d_A d_B d_C sz m r1 r2 r3 run. subst run r3 r2 r1.
  destruct (CleanupNoFailure free w d_A d_B d_C sz m) as [o m'] eqn:H.
  unfold CleanupNoFailure, free_checked, bind, emit, check_, check, liftO, ret,
    checkCudaErrors in H.
  exec_in H. all: injection H as <- <-.
  all: use_calls; cbn [fst snd]; rewrite <- ?app_assoc; simpl app; eqb_facts.
  all: repeat split; intros; subst;
       try first [reflexivity | congruence | tauto | (left; reflexivity)
                 | (right; reflexivity)].
Qed.

(** X14: [main] frees an allocation only in a run where all three
    allocations, both host-to-device copies, the kernel launch and the
    readback succeeded; a failure at any of these steps ends the process
    with the earlier allocations still held. *)
Theorem main_frees_only_after_success :
  forall (AllocatorState : Type)
    (simpleMallocMultiDeviceMmap :
       Z -> list CUdevice -> list CUdevice -> AllocatorState ->
       (CUresult * (CUdeviceptr * Z)) * AllocatorState)
    (simpleFreeMultiDeviceMmap :
       CUdeviceptr -> Z -> AllocatorState -> CUresult * AllocatorState)
    (w : World) (m : Machine),
  exists evs,
    trace (snd (main simpleMallocMultiDeviceMmap simpleFreeMultiDeviceMmap w m))
    = trace m ++ evs /\
    forall e, In e evs -> is_free e = true ->
      exists dev,
        findCudaDeviceDRV w = Ret dev /\
        let bs := dev :: peersOf (driver w) dev in
        let r1 := simpleMallocMultiDeviceMmap 200000 bs [dev] (allocator m) in
        let r2 := simpleMallocMultiDeviceMmap 200000 bs [dev] (snd r1) in
        let r3 := simpleMallocMultiDeviceMmap 200000 bs [dev] (snd r2) in
        fst (fst r1) = CUDA_SUCCESS /\
        fst (fst r2) = CUDA_SUCCESS /\
        fst (fst r3) = CUDA_SUCCESS /\
        cuMemcpyHtoD w (fst (snd (fst r1))) = CUDA_SUCCESS /\
        cuMemcpyHtoD w (fst (snd (fst r2))) = CUDA_SUCCESS /\
        cuLaunchKernel w = CUDA_SUCCESS /\
        fst (cuMemcpyDtoH w (RandomInit w 0 50000) (RandomInit w 50000 50000))
        = CUDA_SUCCESS.
Proof.
  intros St malloc free w m.
  destruct (main malloc free w m) as [o m'] eqn:H.
  run_main H.
  all: eexists; (split; [rewrite <- ?app_assoc; simpl; reflexivity|]).
  all: intros e Hin Hfree.
  all: simpl in Hin;
       repeat (destruct Hin as [Hin|Hin];
               [try (subst e; discriminate Hfree)|]);
       try contradiction.
  all: match goal with
       | Hf : findCudaDeviceDRV ?w0 = Ret ?dev,
         Hv : (snd (cuDeviceGetAttribute_VAM (driver ?w0) ?dev) =? 0) = false,
         Hb : getBackingDevices (driver ?w0) ?dev = Ret ?bs |- _ =>
         assert (Hvam : supportsVirtualAddressManagement (driver w0) dev = true)
           by (unfold supportsVirtualAddressManagement; rewrite Hv; reflexivity);
         pose proof (peers_of_returned _ _ _ Hb Hvam) as Hbs; subst bs;
         exists dev
       end.
  all: split; [reflexivity|].
  all: use_calls; eqb_facts; repeat (split; [assumption|]); assumption.
Qed.

(** X15: provided the device-selection helper does not itself end the
    process with [EXIT_WAIVED], [main] exits with [EXIT_WAIVED] exactly when
    the driver initialised, a device was selected, and that device answered
    the capability query with 0. *)
Theorem main_waived_iff_capability_missing :
  forall (AllocatorState : Type)
    (simpleMallocMultiDeviceMmap :
       Z -> list CUdevice -> list CUdevice -> AllocatorState ->
       (CUresult * (CUdeviceptr * Z)) * AllocatorState)
    (simpleFreeMultiDeviceMmap :
       CUdeviceptr -> Z -> AllocatorState -> CUresult * AllocatorState)
    (w : World) (m : Machine),
    findCudaDeviceDRV w <> Exit EXIT_WAIVED ->
    (fst (main simpleMallocMultiDeviceMmap simpleFreeMultiDeviceMmap w m)
     = Exit EXIT_WAIVED <->
     cuInit w = CUDA_SUCCESS /\
     exists dev,
       findCudaDeviceDRV w = Ret dev /\
       fst (cuDeviceGetAttribute_VAM (driver w) dev) = CUDA_SUCCESS /\
       supportsVirtualAddressManagement (driver w) dev = false).
Proof.
  intros St malloc free w m Hfind.
  destruct (main malloc free w m) as [o m'] eqn:H.
  run_main H.
  all: try match goal with
           | Hb : getBackingDevices _ _ = Exit _ |- _ =>
             apply getBackingDevices_Exit in Hb; subst
           end.
  all: try (unfold result_code; destruct (verify _ _ _ _ =? 50000)).
  all: unfold supportsVirtualAddressManagement; eqb_facts.
  all: split;
       [ intros Hx; first [discriminate Hx | congruence | idtac]
       | intros (Hi & dev & Hd & Hs & Hv);
         apply negb_false_iff, Z.eqb_eq in Hv;
         first [congruence | idtac] ].
  all: try (split; [assumption|]; eexists; split; [reflexivity|];
            split; [assumption|]; apply negb_false_iff, Z.eqb_eq; assumption).
  all: try (injection Hd as <-; congruence).
Qed.

Lemma main_exit_success_iff_pass_reported_witness :
  let w := quiet_world two_devices 1 (fun a b i => f32_add (a i) (b i)) in
  findCudaDeviceDRV w <> Exit EXIT_SUCCESS /\
  (fst (main (mallocOn no_faults sample_granularity (fun _ => true)) freeOn w
             (start empty_state))
   = Exit EXIT_SUCCESS <->
   last (trace (snd (main (mallocOn no_faults sample_granularity (fun _ => true))
                          freeOn w (start empty_state))))
   = Some (Printf ResultPass)).
Proof.
  intros w.
  assert (H : findCudaDeviceDRV w <> Exit EXIT_SUCCESS) by discriminate.
  split; [exact H|].
  apply (main_exit_success_iff_pass_reported AllocState
           (mallocOn no_faults sample_granularity (fun _ => true)) freeOn
           w (start empty_state) H).
Defined.

Lemma main_waived_iff_capability_missing_witness :
  let w := quiet_world two_devices 1 (fun a b i => f32_add (a i) (b i)) in
  findCudaDeviceDRV w <> Exit EXIT_WAIVED /\
  (fst (main (mallocOn no_faults sample_granularity (fun _ => true)) freeOn w
             (start empty_state))
   = Exit EXIT_WAIVED <->
   cuInit w = CUDA_SUCCESS /\
   exists dev,
     findCudaDeviceDRV w = Ret dev /\
     fst (cuDeviceGetAttribute_VAM (driver w) dev) = CUDA_SUCCESS /\
     supportsVirtualAddressManagement (driver w) dev = false).
Proof.
  intros w.
  assert (H : findCudaDeviceDRV w <> Exit EXIT_WAIVED) by discriminate.
  split; [exact H|].
  apply (main_waived_iff_capability_missing AllocState
           (mallocOn no_faults sample_granularity (fun _ => true)) freeOn
           w (start empty_state) H).
Defined.

(** ** The verification loop and NaN *)

Lemma exceeds_tolerance_nan a b c :
  a = f32_nan \/ b = f32_nan \/ c = f32_nan ->
  exceeds_tolerance a b c = false.
Proof.
  unfold exceeds_tolerance, f32_gt, f32_abs, f32_sub, f32_add, f32_nan.
  intros [-> | [-> | ->]].
  - destruct b, c; reflexivity.
  - destruct a; simpl; destruct c; reflexivity.
  - reflexivity.
Qed.

(** X9: the loop never stops at an index where one of [h_A], [h_B] or
    [h_C] holds a NaN: such an element is accepted whatever the other two
    values are. *)
Theorem verify_never_stops_at_nan :
  forall (N : Z) (h_A h_B h_C : HostArray),
    0 <= N ->
    verify N h_A h_B h_C < N ->
    h_A (verify N h_A h_B h_C) <> f32_nan /\
    h_B (verify N h_A h_B h_C) <> f32_nan /\
    h_C (verify N h_A h_B h_C) <> f32_nan.
Proof.
  intros N h_A h_B h_C HN Hlt. unfold verify in *.
  pose proof (verify_loop_first_excess h_A h_B h_C (Z.to_nat N) 0) as H.
  simpl in H. rewrite Z2Nat.id in H by exact HN.
  destruct H as (_ & _ & Hat). specialize (Hat Hlt).
  repeat split; intros Hnan;
    rewrite exceeds_tolerance_nan in Hat by tauto; discriminate Hat.
Qed.

Lemma verify_never_stops_at_nan_witness :
  let h_C : HostArray := fun i => if i =? 3 then f32_of_int 1 else f32_zero in
  0 <= 50000 /\
  verify 50000 zeros zeros h_C < 50000 /\
  zeros (verify 50000 zeros zeros h_C) <> f32_nan /\
  zeros (verify 50000 zeros zeros h_C) <> f32_nan /\
  h_C (verify 50000 zeros zeros h_C) <> f32_nan.
Proof.
  intros h_C.
  assert (HN : 0 <= 50000) by lia.
  assert (Hlt : verify 50000 zeros zeros h_C < 50000) by (vm_compute; reflexivity).
  split; [exact HN|]. split; [exact Hlt|].
  apply (verify_never_stops_at_nan 50000 zeros zeros h_C HN Hlt).
Defined.
